(** * ssdeep signature comparison (score.go)

    A shallow embedding of [Distance], [splitSsdeep], [hasCommonSubstring]
    and [scoreDistance] of package ssdeep, and the properties of the
    natural-language specification settled against it.

    Conventions.
    - A Go [string] / [[]byte] is a [list ascii] (one [ascii] per byte).
    - A Go [int] is a 64-bit two's complement integer, held in [Z]; the
      arithmetic on block sizes, which comes straight from the input text,
      is wrapped with [wrap64].  Lengths and edit distances are bounded by
      the length of the input strings and are kept in [Z] unwrapped.
    - [float64] is IEEE 754 binary64, computed with the executable
      specification [SpecFloat] of the standard library. *)

From Stdlib Require Import ZArith List Ascii String Bool Lia.
From Stdlib Require Import Floats.SpecFloat.
Import ListNotations.

Local Open Scope Z_scope.

(** ** Bytes *)

Definition bytes := list ascii.

Definition bytes_of (s : string) : bytes := list_ascii_of_string s.

Definition colon : ascii := ":"%char.

Definition len (s : bytes) : Z := Z.of_nat (List.length s).

Fixpoint bytes_eqb (a b : bytes) : bool :=
  match a, b with
  | [], [] => true
  | x :: a', y :: b' => Ascii.eqb x y && bytes_eqb a' b'
  | _, _ => false
  end.

(** ** Machine integers *)

Definition minInt64 : Z := - 2 ^ 63.
Definition maxInt64 : Z := 2 ^ 63 - 1.
Definition maxUint64 : Z := 2 ^ 64 - 1.

(** Two's complement wrap-around of a 64-bit [int]. *)
Definition wrap64 (z : Z) : Z := (z + 2 ^ 63) mod 2 ^ 64 - 2 ^ 63.

(** ** strconv.Atoi (Go standard library)

    [Atoi s] is [ParseInt(s, 10, 0)]: an optional sign, then at least one
    decimal digit and nothing else; the value has to fit the 64-bit [int].
    The scan of the digits stops at the first byte that is not a digit
    (syntax error) or at the first digit that takes the magnitude out of
    [uint64] (range error), whichever comes first. *)

Inductive NumError := ErrSyntax | ErrRange.

Definition digit_of (c : ascii) : option Z :=
  let n := Z.of_N (N_of_ascii c) in
  if (48 <=? n) && (n <=? 57) then Some (n - 48) else None.

Fixpoint parseUint_loop (s : bytes) (n : Z) : Z * option NumError :=
  match s with
  | [] => (n, None)
  | c :: s' =>
      match digit_of c with
      | None => (0, Some ErrSyntax)
      | Some d =>
          if maxUint64 <? n * 10 + d then (maxUint64, Some ErrRange)
          else parseUint_loop s' (n * 10 + d)
      end
  end.

Definition parseUint (s : bytes) : Z * option NumError :=
  match s with
  | [] => (0, Some ErrSyntax)
  | _ => parseUint_loop s 0
  end.

Definition Atoi (s : bytes) : Z * option NumError :=
  match s with
  | [] => (0, Some ErrSyntax)
  | c :: s' =>
      let neg := Ascii.eqb c "-" in
      let digits := if Ascii.eqb c "+" || neg then s' else s in
      match parseUint digits with
      | (_, Some ErrSyntax) => (0, Some ErrSyntax)
      | (un, _) =>
          let cutoff := 2 ^ 63 in
          if negb neg && (cutoff <=? un) then (cutoff - 1, Some ErrRange)
          else if neg && (cutoff <? un) then (- cutoff, Some ErrRange)
          else (if neg then - un else un, None)
      end
  end.

(** ** Errors of the package *)

Inductive error :=
| ErrEmptyHash                       (* errors.New("empty string") *)
| ErrInvalidFormat                   (* errors.New("invalid ssdeep format") *)
| ErrInvalidFormatAtoi (e : NumError).
    (* fmt.Errorf("%s: %w", ErrInvalidFormat.Error(), err) *)

(** ** splitSsdeep *)

(** First loop: the bytes before the first [':'] go to the buffer; [index]
    is the position after that separator and stays 0 when there is none. *)
Fixpoint scanBlockSize (hashBytes : bytes) (i : nat) (buffer : bytes)
  : nat * bytes :=
  match hashBytes with
  | [] => (0%nat, buffer)
  | b :: rest =>
      if Ascii.eqb b colon then (S i, buffer)
      else scanBlockSize rest (S i) (buffer ++ [b])
  end.

(** The body shared by the second and third loop, after the test for the
    separator: [seq] counts the repetitions of [prev] seen so far. *)
Record runState := mkRun { buffer : bytes; seq : Z; prev : ascii }.

Definition writeCollapsed (st : runState) (curr : ascii) : runState :=
  if Ascii.eqb curr (prev st) then
    let seq' := seq st + 1 in
    if seq' <? 3 then mkRun (buffer st ++ [curr]) seq' (prev st)
    else mkRun (buffer st) seq' (prev st)
  else mkRun (buffer st ++ [curr]) 0 curr.

Definition runInit : runState := mkRun [] 0 colon.

(** Second loop over [hashBytes[index:]]: [Some (i + 1, buffer)] when the
    separator is met at offset [i] ([indexUpdated] is set), [None] when the
    loop runs off the end. *)
Fixpoint scanPart1 (rest : bytes) (i : nat) (st : runState)
  : option (nat * bytes) :=
  match rest with
  | [] => None
  | curr :: rest' =>
      if Ascii.eqb curr colon then Some (S i, buffer st)
      else scanPart1 rest' (S i) (writeCollapsed st curr)
  end.

(** Third loop: a separator is an error ([None]). *)
Fixpoint scanPart2 (rest : bytes) (st : runState) : option bytes :=
  match rest with
  | [] => Some (buffer st)
  | curr :: rest' =>
      if Ascii.eqb curr colon then None
      else scanPart2 rest' (writeCollapsed st curr)
  end.

Definition splitSsdeep (hash : bytes) : Z * bytes * bytes * option error :=
  match hash with
  | [] => (0, [], [], Some ErrEmptyHash)
  | _ =>
      let hashBytes := hash in
      let '(index, buf) := scanBlockSize hashBytes 0 [] in
      if Nat.eqb index 0 then (0, [], [], Some ErrInvalidFormat)
      else
        match Atoi buf with
        | (blockSize, Some err) =>
            (blockSize, [], [], Some (ErrInvalidFormatAtoi err))
        | (blockSize, None) =>
            match scanPart1 (skipn index hashBytes) 0 runInit with
            | None => (0, [], [], Some ErrInvalidFormat)
            | Some (off, part1) =>
                let index' := (index + off)%nat in
                match scanPart2 (skipn index' hashBytes) runInit with
                | None => (0, [], [], Some ErrInvalidFormat)
                | Some part2 => (blockSize, part1, part2, None)
                end
            end
        end
  end.

(** ** float64

    The only floating-point steps of the package: conversions of [int]
    values, one division, one product, [math.Min], [math.Max] and the
    conversion back to [int]. *)

Definition float64 := spec_float.

Definition float64_of_int (z : Z) : float64 := binary_normalize 53 1024 z 0 false.

Definition f64_div : float64 -> float64 -> float64 := SFdiv 53 1024.
Definition f64_mul : float64 -> float64 -> float64 := SFmul 53 1024.

Definition f64_isNaN (x : float64) : bool :=
  match x with S754_nan => true | _ => false end.

Definition f64_isInf (x : float64) (negative : bool) : bool :=
  match x with S754_infinity s => Bool.eqb s negative | _ => false end.

Definition f64_isZero (x : float64) : bool :=
  match x with S754_zero _ => true | _ => false end.

Definition f64_signbit (x : float64) : bool :=
  match x with
  | S754_zero s | S754_infinity s | S754_finite s _ _ => s
  | S754_nan => false
  end.

(** math.Min and math.Max, with their special cases in the order of the
    Go library. *)
Definition math_Min (x y : float64) : float64 :=
  if f64_isInf x true || f64_isInf y true then S754_infinity true
  else if f64_isNaN x || f64_isNaN y then S754_nan
  else if f64_isZero x && f64_isZero y then (if f64_signbit x then x else y)
  else if SFltb x y then x else y.

Definition math_Max (x y : float64) : float64 :=
  if f64_isInf x false || f64_isInf y false then S754_infinity false
  else if f64_isNaN x || f64_isNaN y then S754_nan
  else if f64_isZero x && f64_isZero y then (if f64_signbit x then y else x)
  else if SFltb y x then x else y.

(** [int(f)]: the fraction is discarded (truncation towards zero).  A value
    outside of [int], an infinity or a NaN has an implementation-dependent
    result in Go; the one of amd64 and arm64 for a negative overflow,
    [minInt64], is taken here. *)
Definition int_of_float64 (f : float64) : Z :=
  match f with
  | S754_zero _ => 0
  | S754_finite s m e =>
      let mag := if 0 <=? e then Zpos m * 2 ^ e else Zpos m / 2 ^ (- e) in
      let v := if s then - mag else mag in
      if (minInt64 <=? v) && (v <=? maxInt64) then v else minInt64
  | _ => minInt64
  end.

(** The mantissa of [float64(m)] for an integer [0 < m < 2^53], which the
    conversion represents exactly: [m] shifted to 53 binary digits. *)
Definition mantissa (m : positive) : positive :=
  match (53 - Zpos (Pos.size m))%Z with
  | Zpos k => Pos.iter xO m k
  | _ => m
  end.

(** ** Declarations of the package outside score.go

    score.go uses four constants, the rolling checksum and the edit
    distance, all declared in other files of the package.  The functions of
    score.go are embedded over these declarations. *)

Class Externals := {
  (** window length of the rolling checksum (a positive constant: the
      loops of [hasCommonSubstring] index [h1[rollingWindow-1]]) *)
  rollingWindow : nat;
  (** maximum length of a signature part *)
  spamSumLength : Z;
  (** block sizes from this one on are not capped *)
  blockSizeSmallLimit : Z;
  (** smallest block size; an untyped constant, used as a [float64] *)
  blockMin : Z;
  (** [rollingState], its zero value [rollingState{}], and its methods;
      [rollSum] returns a [uint32] *)
  rollingState : Type;
  rollingZero : rollingState;
  rollHash : rollingState -> ascii -> rollingState;
  rollSum : rollingState -> Z;
  (** [distance(h1, h2)], an [int] *)
  distance : bytes -> bytes -> Z
}.

Section Score.

Context {ext : Externals}.

(** [h[lo:hi]] *)
Definition slice (h : bytes) (lo hi : nat) : bytes := firstn (hi - lo) (skipn lo h).

(** [state.rollHash] over the bytes of [s], in order. *)
Definition rollBytes (state : rollingState) (s : bytes) : rollingState :=
  fold_left rollHash s state.

(** [state.rollHash(c); hashes = append(hashes, state.rollSum())] for every
    byte [c] of [s]. *)
Fixpoint rollSums (state : rollingState) (s : bytes) : list Z :=
  match s with
  | [] => []
  | c :: s' =>
      let state' := rollHash state c in
      rollSum state' :: rollSums state' s'
  end.

(** Inner loop: [for i, hash := range hashes]. *)
Fixpoint matchHashes (h1 h2 : bytes) (j : nat) (h : Z) (i : nat) (hashes : list Z)
  : bool :=
  match hashes with
  | [] => false
  | hash :: hashes' =>
      if (hash =? h)
         && bytes_eqb (slice h1 i (i + rollingWindow)) (slice h2 j (j + rollingWindow))
      then true
      else matchHashes h1 h2 j h (S i) hashes'
  end.

(** Outer loop over [j]; [rest] holds the bytes [h2[j+rollingWindow-1:]]
    still to be fed. *)
Fixpoint scanWindows (h1 h2 : bytes) (hashes : list Z) (state : rollingState)
  (j : nat) (rest : bytes) : bool :=
  match rest with
  | [] => false
  | c :: rest' =>
      let state' := rollHash state c in
      let h := rollSum state' in
      if matchHashes h1 h2 j h 0 hashes then true
      else scanWindows h1 h2 hashes state' (S j) rest'
  end.

(** [hashes] grows by [append]; its initial capacity
    [spamSumLength-rollingWindow+1] does not change what is computed. *)
Definition hasCommonSubstring (h1 h2 : bytes) : bool :=
  let l1 := List.length h1 in
  let l2 := List.length h2 in
  if (l1 <? rollingWindow)%nat || (l2 <? rollingWindow)%nat then false
  else
    let state := rollBytes rollingZero (firstn (rollingWindow - 1) h1) in
    let hashes := rollSums state (skipn (rollingWindow - 1) h1) in
    let state := rollBytes rollingZero (firstn (rollingWindow - 1) h2) in
    scanWindows h1 h2 hashes state 0 (skipn (rollingWindow - 1) h2).

(** The cap of small block sizes:
    [int(float64(blockSize) / blockMin * math.Min(float64(len(h1)), float64(len(h2))))]. *)
Definition matchSize (h1 h2 : bytes) (blockSize : Z) : Z :=
  int_of_float64
    (f64_mul (f64_div (float64_of_int blockSize) (float64_of_int blockMin))
             (math_Min (float64_of_int (len h1)) (float64_of_int (len h2)))).

(** Integer division of Go truncates towards zero ([Z.quot]).  The divisor
    [len(h1) + len(h2)] is positive once [hasCommonSubstring] holds. *)
Definition scoreDistance (h1 h2 : bytes) (blockSize : Z) : Z :=
  if negb (hasCommonSubstring h1 h2) then 0
  else
    let d := distance h1 h2 in
    let d := (d * spamSumLength) ÷ (len h1 + len h2) in
    let d := (100 * d) ÷ spamSumLength in
    let d := 100 - d in
    if blockSizeSmallLimit <=? blockSize then d
    else
      let matchSize := matchSize h1 h2 blockSize in
      if matchSize <? d then matchSize else d.

Definition Distance (hash1 hash2 : bytes) : Z * option error :=
  let score := 0 in
  match splitSsdeep hash1 with
  | (_, _, _, Some err) => (score, Some err)
  | (hash1BlockSize, hash1String1, hash1String2, None) =>
      match splitSsdeep hash2 with
      | (_, _, _, Some err) => (score, Some err)
      | (hash2BlockSize, hash2String1, hash2String2, None) =>
          if (hash1BlockSize =? hash2BlockSize)
             && (len hash1String1 =? len hash2String1)
             && (len hash1String2 =? len hash2String2)
             && bytes_eqb hash1String1 hash2String1
             && bytes_eqb hash1String2 hash2String2
          then (100, None)
          else if negb (hash1BlockSize =? hash2BlockSize)
                  && negb (hash1BlockSize =? wrap64 (hash2BlockSize * 2))
                  && negb (hash2BlockSize =? wrap64 (hash1BlockSize * 2))
          then (score, None)
          else if hash1BlockSize =? hash2BlockSize then
            let d1 := scoreDistance hash1String1 hash2String1 hash1BlockSize in
            let d2 := scoreDistance hash1String2 hash2String2
                        (wrap64 (hash1BlockSize * 2)) in
            (int_of_float64 (math_Max (float64_of_int d1) (float64_of_int d2)), None)
          else if hash1BlockSize =? wrap64 (hash2BlockSize * 2) then
            (scoreDistance hash1String1 hash2String2 hash1BlockSize, None)
          else
            (scoreDistance hash1String2 hash2String1 hash2BlockSize, None)
      end
  end.

End Score.

(** ** The score of the specification *)

Section ScoreSpec.

Context {ext : Externals}.

(** Section 4.5 read with truncating integer division in every step, the
    cap included. *)
Definition normalize_integer (d len1 len2 blockSize : Z) : Z :=
  let scaled := d * spamSumLength ÷ (len1 + len2) in
  let pct := 100 * scaled ÷ spamSumLength in
  let score := 100 - pct in
  if blockSize <? blockSizeSmallLimit then
    let matchCap := blockSize ÷ blockMin * Z.min len1 len2 in
    if matchCap <? score then matchCap else score
  else score.

(** Section 4.5 read with the cap as the floor of the exact quotient
    [blockSize * min(len1, len2) / U]. *)
Definition normalize_floor (d len1 len2 blockSize : Z) : Z :=
  let scaled := d * spamSumLength ÷ (len1 + len2) in
  let pct := 100 * scaled ÷ spamSumLength in
  let score := 100 - pct in
  if blockSize <? blockSizeSmallLimit then
    let matchCap := blockSize * Z.min len1 len2 / blockMin in
    if matchCap <? score then matchCap else score
  else score.

(** The cap with the quotient and the product taken in [float64] and the
    result truncated towards zero. *)
Definition matchCap (blockSize len1 len2 : Z) : Z :=
  int_of_float64
    (f64_mul (f64_div (float64_of_int blockSize) (float64_of_int blockMin))
             (float64_of_int (Z.min len1 len2))).

(** Section 4.5, steps 1 to 4, with that cap.  The operands of [/] are
    non-negative here, where the truncating division of Go is the quotient
    of the Euclidean division. *)
Definition normalize (d len1 len2 blockSize : Z) : Z :=
  let scaled := d * spamSumLength / (len1 + len2) in
  let pct := 100 * scaled / spamSumLength in
  let score := 100 - pct in
  if blockSize <? blockSizeSmallLimit then Z.min score (matchCap blockSize len1 len2)
  else score.

End ScoreSpec.

(** ** The declarations of the signature format

    The values the theorems below are instantiated at, and the concrete
    inputs are run with. *)

(** Modelled from the spec: [distance] is declared outside score.go.
    Section 4.4: the minimum number of single-character insertions,
    deletions or substitutions transforming [a] into [b] (the standard
    Levenshtein distance), by its recurrence on the two heads. *)
Fixpoint levenshtein (a : bytes) : bytes -> nat :=
  fix inner (b : bytes) : nat :=
    match a, b with
    | [], _ => List.length b
    | _, [] => List.length a
    | x :: a', y :: b' =>
        Nat.min (Nat.min (S (levenshtein a' b)) (S (inner b')))
                (levenshtein a' b' + (if Ascii.eqb x y then 0 else 1))%nat
    end.

Module Spamsum.

Definition W : nat := 7.

Definition wrap32 (z : Z) : Z := z mod 2 ^ 32.

Definition u32 (c : ascii) : Z := Z.of_N (N_of_ascii c).

(** Modelled from the spec: [rollingState], [rollHash] and [rollSum] are
    declared outside score.go.  Section 4.2: a byte window plus accumulators
    updated in O(1); feeding a byte evicts the oldest one; the checksum is
    a function of the accumulators.  The accumulators are those of the
    signature format: the sum of the window, its position-weighted sum, and
    a shift-and-xor register, each a [uint32].  The window is kept oldest
    byte first. *)
Record state := mk { window : list Z; h1 : Z; h2 : Z; h3 : Z }.

(** [rollingState{}]: a window of zero bytes, accumulators at zero. *)
Definition zero : state := mk (repeat 0 W) 0 0 0.

Definition shiftXor (h c : Z) : Z := Z.lxor (Z.land (Z.shiftl h 5) (Z.ones 32)) c.

Definition roll (rs : state) (c : ascii) : state :=
  let h2' := wrap32 (wrap32 (h2 rs - h1 rs) + Z.of_nat W * u32 c) in
  let h1' := wrap32 (wrap32 (h1 rs + u32 c) - hd 0 (window rs)) in
  mk (tl (window rs) ++ [u32 c]) h1' h2' (shiftXor (h3 rs) (u32 c)).

Definition sum (rs : state) : Z := wrap32 (wrap32 (h1 rs + h2 rs) + h3 rs).

(** The accumulators as functions of the bytes fed. *)
Definition total (w : list Z) : Z := fold_right Z.add 0 w.

Fixpoint weighted (i : Z) (w : list Z) : Z :=
  match w with
  | [] => 0
  | a :: w' => i * a + weighted (i + 1) w'
  end.

Definition register (l : list Z) (h : Z) : Z := fold_left shiftXor l h.

(** The state after the bytes [pre ++ w], of which [w] are the last seven. *)
Definition stateOf (pre w : list Z) : state :=
  mk w (wrap32 (total w)) (wrap32 (weighted 1 w)) (register (pre ++ w) 0).

(** The register forgets what was fed more than seven bytes ago: two
    registers that agree below bit [k] agree below [k + 5] after a byte. *)
Definition agree (k h h' : Z) : Prop :=
  forall n, n < k -> Z.testbit h n = Z.testbit h' n.

End Spamsum.

(** Modelled from the spec: [rollingWindow], [spamSumLength], [blockMin]
    and [blockSizeSmallLimit] are declared outside score.go.  Section 9:
    window length, maximum segment length, small-block threshold and
    granularity unit are fixed constants of the established signature
    format; there the window has 7 bytes, a part at most 64 characters, the
    minimal block size is 3 and the small-block limit is
    [(99 + rollingWindow) / rollingWindow * blockMin = 45]. *)
Definition format : Externals := {|
  rollingWindow := Spamsum.W;
  spamSumLength := 64;
  blockSizeSmallLimit := 45;
  blockMin := 3;
  rollingState := Spamsum.state;
  rollingZero := Spamsum.zero;
  rollHash := Spamsum.roll;
  rollSum := Spamsum.sum;
  distance := fun a b => Z.of_nat (levenshtein a b)
|}.

(** ** Notions of the specification *)

(** Run-length encoding of a byte string, and its inverse. *)
Fixpoint rle (s : bytes) : list (ascii * nat) :=
  match s with
  | [] => []
  | c :: s' =>
      match rle s' with
      | (c', n) :: r =>
          if Ascii.eqb c c' then (c, S n) :: r else (c, 1%nat) :: (c', n) :: r
      | [] => [(c, 1%nat)]
      end
  end.

Definition expand (runs : list (ascii * nat)) : bytes :=
  flat_map (fun cn => repeat (fst cn) (snd cn)) runs.

(** A run cut down to at most three bytes. *)
Definition trunc3 (cn : ascii * nat) : ascii * nat := (fst cn, Nat.min (snd cn) 3).

(** Every run of more than [k] identical bytes cut down to exactly [k]. *)
Definition collapseRuns (k : nat) (s : bytes) : bytes :=
  expand (map (fun cn => (fst cn, Nat.min (snd cn) k)) (rle s)).

(** Length of the run of [c] that [s] starts with, and of the longest run
    of identical consecutive bytes in [s]. *)
Fixpoint runLen (c : ascii) (s : bytes) : nat :=
  match s with
  | x :: s' => if Ascii.eqb x c then S (runLen c s') else 0
  | [] => 0
  end.

Fixpoint maxRun (s : bytes) : nat :=
  match s with
  | [] => 0
  | c :: s' => Nat.max (S (runLen c s')) (maxRun s')
  end.

Definition noColon (s : bytes) : Prop := ~ In colon s.

(** Decimal numerals. *)
Definition isDigit (c : ascii) : Prop := digit_of c <> None.

Definition digitVal (c : ascii) : Z :=
  match digit_of c with Some d => d | None => 0 end.

Definition decStep (n : Z) (c : ascii) : Z := n * 10 + digitVal c.

Definition decimal (digits : bytes) : Z := fold_left decStep digits 0.

(** [f] is the text of the 64-bit integer [v]: an optional sign and at
    least one decimal digit. *)
Definition intLiteral (f : bytes) (v : Z) : Prop :=
  exists digits,
    digits <> [] /\ Forall isDigit digits /\
    ((f = digits \/ f = "+"%char :: digits) /\ v = decimal digits
     \/ f = "-"%char :: digits /\ v = - decimal digits) /\
    minInt64 <= v <= maxInt64.

(** The two error kinds of the specification. *)
Definition EmptyInput (e : option error) : Prop := e = Some ErrEmptyHash.

Definition MalformedSignature (e : option error) : Prop :=
  e = Some ErrInvalidFormat \/ exists n, e = Some (ErrInvalidFormatAtoi n).

(** The text [blockSize:part1:part2] with exactly two separators. *)
Definition threeFields (hash f0 f1 f2 : bytes) : Prop :=
  hash = f0 ++ colon :: f1 ++ colon :: f2 /\
  noColon f0 /\ noColon f1 /\ noColon f2.

(** The error of the parser on [hash]. *)
Definition parseError (hash : bytes) : option error := snd (splitSsdeep hash).

(** The ways a non-empty text fails to be a signature: no separator at
    all; a block-size field that is not the text of an [int]; no second
    separator; a third separator. *)
Definition malformedText (hash : bytes) : Prop :=
  noColon hash
  \/ (exists f0 r, hash = f0 ++ colon :: r /\ noColon f0 /\
                   ~ exists v, intLiteral f0 v)
  \/ (exists f0 f1, hash = f0 ++ colon :: f1 /\ noColon f0 /\ noColon f1)
  \/ (exists f0 f1 r, hash = f0 ++ colon :: f1 ++ colon :: r /\
                      noColon f0 /\ noColon f1 /\ In colon r).

(** The pairs of parts that the branch of [Distance] selected by the two
    block sizes compares. *)
Definition comparedParts (b1 : Z) (p11 p12 : bytes) (b2 : Z) (p21 p22 : bytes)
  : list (bytes * bytes) :=
  if b1 =? b2 then [(p11, p21); (p12, p22)]
  else if b1 =? wrap64 (b2 * 2) then [(p11, p22)]
  else if b2 =? wrap64 (b1 * 2) then [(p12, p21)]
  else [].

(** [h2] is [h1] with one byte inserted. *)
Definition insertedOne (h1 h2 : bytes) : Prop :=
  exists x c y, h1 = x ++ y /\ h2 = x ++ c :: y.

Definition oneInsertionApart (h1 h2 : bytes) : Prop :=
  insertedOne h1 h2 \/ insertedOne h2 h1.

(** [h1] and [h2] share a window of [w] consecutive bytes. *)
Definition commonWindow (w : nat) (h1 h2 : bytes) : Prop :=
  exists i j,
    (i + w <= List.length h1)%nat /\ (j + w <= List.length h2)%nat /\
    firstn w (skipn i h1) = firstn w (skipn j h2).

(** The text before the first separator and the text after it. *)
Fixpoint cut (s : bytes) : option (bytes * bytes) :=
  match s with
  | [] => None
  | c :: s' =>
      if Ascii.eqb c colon then Some ([], s')
      else match cut s' with
           | Some (f, r) => Some (c :: f, r)
           | None => None
           end
  end.

(** The bytes that the collapsing loop writes for the input [s] when it
    starts with [prev = p] and [seq = k]. *)
Fixpoint collapseFrom (p : ascii) (k : Z) (s : bytes) : bytes :=
  match s with
  | [] => []
  | c :: s' =>
      if Ascii.eqb c p then
        if k + 1 <? 3 then c :: collapseFrom p (k + 1) s'
        else collapseFrom p (k + 1) s'
      else c :: collapseFrom c 0 s'
  end.

(** ** What the functions of score.go need from the other declarations *)

Section Assumptions.

Context {ext : Externals}.

(** The checksum is a function of the last [rollingWindow] bytes fed. *)
Definition windowed : Prop :=
  forall s t w : bytes,
    List.length w = rollingWindow ->
    rollSum (rollBytes rollingZero (s ++ w)) = rollSum (rollBytes rollingZero (t ++ w)).

(** What the specification says of the edit distance (section 4.4): it is
    symmetric, and one insertion costs one operation. *)
Definition distance_sym : Prop := forall a b : bytes, distance a b = distance b a.

Definition distance_insert : Prop :=
  forall a b : bytes, oneInsertionApart a b -> distance a b = 1.

End Assumptions.

(** ** Basic facts *)

Lemma bytes_eqb_eq (a b : bytes) : bytes_eqb a b = true <-> a = b.
Proof.
  revert b; induction a as [|x a IH]; intros [|y b]; simpl;
    try (split; (discriminate || reflexivity)).
  rewrite andb_true_iff, Ascii.eqb_eq, IH.
  split; [intros [-> ->]; reflexivity | intros [= -> ->]; auto].
Qed.

Lemma bytes_eqb_refl (a : bytes) : bytes_eqb a a = true.
Proof. apply bytes_eqb_eq; reflexivity. Qed.

Lemma bytes_eqb_sym (a b : bytes) : bytes_eqb a b = bytes_eqb b a.
Proof.
  destruct (bytes_eqb a b) eqn:E, (bytes_eqb b a) eqn:F; auto.
  - apply bytes_eqb_eq in E; subst. now rewrite bytes_eqb_refl in F.
  - apply bytes_eqb_eq in F; subst. now rewrite bytes_eqb_refl in E.
Qed.

Lemma wrap64_id (z : Z) : minInt64 <= z <= maxInt64 -> wrap64 z = z.
Proof.
  unfold wrap64, minInt64, maxInt64; intros H.
  rewrite Z.mod_small; lia.
Qed.

(** ** Atoi *)

Lemma digit_of_range c d : digit_of c = Some d -> 0 <= d <= 9.
Proof.
  unfold digit_of.
  destruct (_ && _) eqn:E; [|discriminate].
  intros [= <-]. apply andb_true_iff in E as [E1 E2]; lia.
Qed.

Lemma digitVal_range c : 0 <= digitVal c <= 9.
Proof.
  unfold digitVal. destruct (digit_of c) eqn:E; [eapply digit_of_range; eauto | lia].
Qed.

Lemma decStep_mono (s : bytes) (n : Z) : 0 <= n -> n <= fold_left decStep s n.
Proof.
  revert n; induction s as [|c s IH]; intros n Hn; simpl; [lia|].
  pose proof (digitVal_range c).
  etransitivity; [|apply IH]; unfold decStep; lia.
Qed.

Lemma parseUint_loop_spec (s : bytes) (n : Z) :
  0 <= n <= maxUint64 ->
  match parseUint_loop s n with
  | (r, None) => Forall isDigit s /\ r = fold_left decStep s n /\ 0 <= r <= maxUint64
  | (r, Some ErrRange) =>
      r = maxUint64 /\ (Forall isDigit s -> maxUint64 < fold_left decStep s n)
  | (r, Some ErrSyntax) => ~ Forall isDigit s
  end.
Proof.
  revert n; induction s as [|c s IH]; intros n Hn; simpl.
  - repeat split; try lia; constructor.
  - destruct (digit_of c) as [d|] eqn:Ed.
    + pose proof (digit_of_range _ _ Ed) as Hd.
      assert (Hstep : decStep n c = n * 10 + d)
        by (unfold decStep, digitVal; now rewrite Ed).
      destruct (maxUint64 <? n * 10 + d) eqn:Hov.
      * apply Z.ltb_lt in Hov. split; [reflexivity|].
        intros _. rewrite Hstep.
        eapply Z.lt_le_trans; [exact Hov | apply decStep_mono; lia].
      * apply Z.ltb_ge in Hov.
        specialize (IH (n * 10 + d) ltac:(lia)).
        rewrite Hstep.
        destruct (parseUint_loop s (n * 10 + d)) as [r [[|]|]].
        -- intros HF. apply IH. now inversion HF.
        -- destruct IH as [-> IH]. split; [reflexivity|].
           intros HF. apply IH. now inversion HF.
        -- destruct IH as (HF & -> & Hr). repeat split; try lia.
           constructor; [unfold isDigit; congruence | exact HF].
    + intros HF. inversion HF as [|? ? Hc]; subst. now apply Hc.
Qed.

Lemma parseUint_spec (s : bytes) :
  match parseUint s with
  | (r, None) =>
      s <> [] /\ Forall isDigit s /\ r = decimal s /\ 0 <= r <= maxUint64
  | (r, Some ErrRange) =>
      r = maxUint64 /\ (Forall isDigit s -> maxUint64 < decimal s)
  | (r, Some ErrSyntax) => s = [] \/ ~ Forall isDigit s
  end.
Proof.
  destruct s as [|c s]; [left; reflexivity|].
  unfold parseUint.
  pose proof (parseUint_loop_spec (c :: s) 0 ltac:(unfold maxUint64; lia)) as H.
  destruct (parseUint_loop (c :: s) 0) as [r [[|]|]]; auto.
  destruct H as (HF & -> & Hr). repeat split; try lia; auto. discriminate.
Qed.

Lemma Atoi_intLiteral (f : bytes) (v : Z) : Atoi f = (v, None) -> intLiteral f v.
Proof.
  destruct f as [|c s]; [discriminate|]. unfold Atoi.
  set (neg := Ascii.eqb c "-").
  set (digits := if Ascii.eqb c "+" || neg then s else c :: s).
  pose proof (parseUint_spec digits) as H.
  destruct (parseUint digits) as [un [[|]|]]; [discriminate| |].
  - destruct H as [-> _].
    destruct neg; simpl; [|discriminate].
    replace (2 ^ 63 <? maxUint64) with true by reflexivity. discriminate.
  - destruct H as (Hne & HF & -> & Hr).
    destruct (negb neg && (2 ^ 63 <=? decimal digits)) eqn:E1; [discriminate|].
    destruct (neg && (2 ^ 63 <? decimal digits)) eqn:E2; [discriminate|].
    intros [= <-]. exists digits. split; [exact Hne|]. split; [exact HF|].
    subst digits neg.
    destruct (Ascii.eqb c "-") eqn:Em.
    + apply Ascii.eqb_eq in Em; subst c. simpl in *.
      apply Z.ltb_ge in E2. split; [right; auto|]. unfold minInt64, maxInt64. lia.
    + simpl in E1. apply Z.leb_gt in E1.
      rewrite orb_false_r in *.
      split; [|unfold minInt64, maxInt64; lia].
      left. split; [|reflexivity].
      destruct (Ascii.eqb c "+") eqn:Ep; [|left; reflexivity].
      apply Ascii.eqb_eq in Ep; subst c. right; reflexivity.
Qed.

Lemma isDigit_not_sign (c : ascii) :
  isDigit c -> Ascii.eqb c "+" = false /\ Ascii.eqb c "-" = false.
Proof.
  intros H. split.
  - destruct (Ascii.eqb c "+") eqn:E; [|reflexivity].
    apply Ascii.eqb_eq in E; subst. exfalso; apply H; reflexivity.
  - destruct (Ascii.eqb c "-") eqn:E; [|reflexivity].
    apply Ascii.eqb_eq in E; subst. exfalso; apply H; reflexivity.
Qed.

Lemma decimal_nonneg (s : bytes) : 0 <= decimal s.
Proof. apply (decStep_mono s 0); lia. Qed.

Lemma parseUint_digits (digits : bytes) :
  digits <> [] -> Forall isDigit digits -> decimal digits <= maxUint64 ->
  parseUint digits = (decimal digits, None).
Proof.
  intros Hne HF Hr. pose proof (parseUint_spec digits) as H.
  destruct (parseUint digits) as [un [[|]|]].
  - destruct H; contradiction.
  - destruct H as [_ H]. specialize (H HF). lia.
  - destruct H as (_ & _ & -> & _). reflexivity.
Qed.

Lemma intLiteral_Atoi (f : bytes) (v : Z) : intLiteral f v -> Atoi f = (v, None).
Proof.
  intros (digits & Hne & HF & Hcase & Hr).
  pose proof (decimal_nonneg digits) as Hd.
  unfold minInt64, maxInt64 in Hr.
  assert (Hp : parseUint digits = (decimal digits, None)).
  { apply parseUint_digits; auto. unfold maxUint64.
    destruct Hcase as [[_ ->] | [_ ->]]; lia. }
  destruct Hcase as [[[-> | ->] ->] | [-> ->]].
  - destruct digits as [|c s]; [contradiction|].
    inversion HF as [|? ? Hc _]; subst.
    destruct (isDigit_not_sign c Hc) as [Ep Em].
    assert (E : (2 ^ 63 <=? decimal (c :: s)) = false) by (apply Z.leb_gt; lia).
    unfold Atoi; cbv zeta. rewrite Ep, Em. cbn [orb negb andb].
    rewrite Hp, E. reflexivity.
  - assert (E : (2 ^ 63 <=? decimal digits) = false) by (apply Z.leb_gt; lia).
    unfold Atoi; cbv zeta.
    change (Ascii.eqb "+" "-") with false. change (Ascii.eqb "+" "+") with true.
    cbn [orb negb andb]. rewrite Hp, E. reflexivity.
  - assert (E : (2 ^ 63 <? decimal digits) = false) by (apply Z.ltb_ge; lia).
    unfold Atoi; cbv zeta.
    change (Ascii.eqb "-" "-") with true. change (Ascii.eqb "-" "+") with false.
    cbn [orb negb andb]. rewrite Hp, E. reflexivity.
Qed.

Lemma Atoi_ok (f : bytes) (v : Z) : Atoi f = (v, None) <-> intLiteral f v.
Proof. split; [apply Atoi_intLiteral | apply intLiteral_Atoi]. Qed.

Lemma Atoi_range (f : bytes) (v : Z) :
  Atoi f = (v, None) -> minInt64 <= v <= maxInt64.
Proof. intros H. apply Atoi_intLiteral in H as (? & _ & _ & _ & H). exact H. Qed.

(** ** The three scans of splitSsdeep *)

Lemma cut_some (s f r : bytes) :
  cut s = Some (f, r) <-> s = f ++ colon :: r /\ noColon f.
Proof.
  revert f r; induction s as [|c s IH]; intros f r; simpl.
  - split; [discriminate|]. intros [H _]. destruct f; discriminate.
  - destruct (Ascii.eqb c colon) eqn:E.
    + apply Ascii.eqb_eq in E; subst c. split.
      * intros [= <- <-]. split; [reflexivity | intros []].
      * intros [H Hn]. destruct f as [|x f]; simpl in H.
        -- now inversion H.
        -- inversion H; subst. exfalso; apply Hn; left; reflexivity.
    + apply Ascii.eqb_neq in E.
      destruct (cut s) as [[f' r']|] eqn:Ec.
      * split.
        -- intros [= <- <-]. destruct (proj1 (IH f' r') eq_refl) as [-> Hn].
           split; [reflexivity|]. intros [H|H]; [congruence | now apply Hn].
        -- intros [H Hn]. destruct f as [|x f]; simpl in H; inversion H; subst.
           ++ congruence.
           ++ assert (Hc : Some (f', r') = Some (f, r)).
              { apply IH. split; [reflexivity|]. intros Hi; apply Hn; now right. }
              now inversion Hc.
      * split; [discriminate|]. intros [H Hn].
        destruct f as [|x f]; simpl in H; inversion H; subst; [congruence|].
        assert (Hc : None = Some (f, r)); [|discriminate].
        apply IH. split; [reflexivity|]. intros Hi; apply Hn; now right.
Qed.

Lemma cut_none (s : bytes) : cut s = None <-> noColon s.
Proof.
  induction s as [|c s IH]; simpl.
  - split; [intros _ [] | reflexivity].
  - destruct (Ascii.eqb c colon) eqn:E.
    + apply Ascii.eqb_eq in E; subst. split; [discriminate|].
      intros H; exfalso; apply H; now left.
    + apply Ascii.eqb_neq in E. destruct (cut s) as [[f r]|].
      * split; [discriminate|]. intros H.
        assert (Hc : Some (f, r) = None); [|discriminate].
        apply IH. intros Hi; apply H; now right.
      * split; [|reflexivity]. intros _ [H|H]; [congruence|].
        now apply (proj1 IH).
Qed.

Lemma cut_skipn (s f r : bytes) :
  cut s = Some (f, r) -> skipn (S (List.length f)) s = r.
Proof.
  intros H. apply cut_some in H as [-> _].
  induction f as [|x f IH]; simpl; [reflexivity | exact IH].
Qed.

Lemma scanBlockSize_cut (s : bytes) (i : nat) (buf : bytes) :
  scanBlockSize s i buf =
  match cut s with
  | Some (f, _) => (S (i + List.length f), buf ++ f)
  | None => (0%nat, buf ++ s)
  end.
Proof.
  revert i buf; induction s as [|c s IH]; intros i buf; simpl.
  - now rewrite app_nil_r.
  - destruct (Ascii.eqb c colon).
    + now rewrite app_nil_r, Nat.add_0_r.
    + rewrite IH. destruct (cut s) as [[f r]|]; simpl;
        rewrite <- app_assoc; simpl; [rewrite Nat.add_succ_r|]; reflexivity.
Qed.

Lemma writeCollapsed_collapseFrom (s : bytes) (st : runState) :
  buffer (fold_left writeCollapsed s st)
  = buffer st ++ collapseFrom (prev st) (seq st) s.
Proof.
  revert st; induction s as [|c s IH]; intros st; simpl.
  - now rewrite app_nil_r.
  - rewrite IH. unfold writeCollapsed.
    destruct (Ascii.eqb c (prev st)); [destruct (seq st + 1 <? 3)|]; simpl;
      rewrite <- ?app_assoc; reflexivity.
Qed.

Lemma scanPart1_cut (s : bytes) (i : nat) (st : runState) :
  scanPart1 s i st =
  match cut s with
  | Some (f, _) =>
      Some (S (i + List.length f), buffer (fold_left writeCollapsed f st))
  | None => None
  end.
Proof.
  revert i st; induction s as [|c s IH]; intros i st; simpl; [reflexivity|].
  destruct (Ascii.eqb c colon).
  - now rewrite Nat.add_0_r.
  - rewrite IH. destruct (cut s) as [[f r]|]; simpl;
      [rewrite Nat.add_succ_r|]; reflexivity.
Qed.

Lemma scanPart2_cut (s : bytes) (st : runState) :
  scanPart2 s st =
  match cut s with
  | Some _ => None
  | None => Some (buffer (fold_left writeCollapsed s st))
  end.
Proof.
  revert st; induction s as [|c s IH]; intros st; simpl; [reflexivity|].
  destruct (Ascii.eqb c colon); [reflexivity|].
  rewrite IH. destruct (cut s) as [[f r]|]; reflexivity.
Qed.

(** [splitSsdeep] in terms of the fields of its input. *)
Lemma splitSsdeep_cut (hash : bytes) :
  splitSsdeep hash =
  match hash with
  | [] => (0, [], [], Some ErrEmptyHash)
  | _ =>
      match cut hash with
      | None => (0, [], [], Some ErrInvalidFormat)
      | Some (f0, r0) =>
          match Atoi f0 with
          | (blockSize, Some err) =>
              (blockSize, [], [], Some (ErrInvalidFormatAtoi err))
          | (blockSize, None) =>
              match cut r0 with
              | None => (0, [], [], Some ErrInvalidFormat)
              | Some (f1, r1) =>
                  match cut r1 with
                  | Some _ => (0, [], [], Some ErrInvalidFormat)
                  | None =>
                      (blockSize, collapseFrom colon 0 f1,
                       collapseFrom colon 0 r1, None)
                  end
              end
          end
      end
  end.
Proof.
  destruct hash as [|c s]; [reflexivity|].
  unfold splitSsdeep. rewrite scanBlockSize_cut.
  destruct (cut (c :: s)) as [[f0 r0]|] eqn:E0; [|reflexivity].
  cbn [Nat.eqb Nat.add app].
  destruct (Atoi f0) as [bs [e|]]; [reflexivity|].
  rewrite (cut_skipn _ _ _ E0), scanPart1_cut.
  destruct (cut r0) as [[f1 r1]|] eqn:E1; [|reflexivity].
  replace (S (List.length f0 + S (0 + List.length f1)))
    with (S (List.length f1) + S (List.length f0))%nat by lia.
  rewrite <- skipn_skipn, (cut_skipn _ _ _ E0), (cut_skipn _ _ _ E1), scanPart2_cut.
  destruct (cut r1) as [[f2 r2]|]; [reflexivity|].
  rewrite !writeCollapsed_collapseFrom. reflexivity.
Qed.

Lemma splitSsdeep_ok (hash : bytes) (bs : Z) (p1 p2 : bytes) :
  splitSsdeep hash = (bs, p1, p2, None) <->
  exists f0 f1 f2,
    threeFields hash f0 f1 f2 /\ intLiteral f0 bs /\
    p1 = collapseFrom colon 0 f1 /\ p2 = collapseFrom colon 0 f2.
Proof.
  rewrite splitSsdeep_cut. split.
  - destruct hash as [|c s]; [discriminate|].
    destruct (cut (c :: s)) as [[f0 r0]|] eqn:E0; [|discriminate].
    destruct (Atoi f0) as [b [e|]] eqn:Ea; [discriminate|].
    destruct (cut r0) as [[f1 r1]|] eqn:E1; [|discriminate].
    destruct (cut r1) as [[f2 r2]|] eqn:E2; [discriminate|].
    intros [= <- <- <-]. exists f0, f1, r1.
    apply cut_some in E0 as [E0 H0]. apply cut_some in E1 as [E1 H1].
    apply cut_none in E2. apply Atoi_ok in Ea.
    repeat split; auto. now rewrite E0, E1.
  - intros (f0 & f1 & f2 & (-> & H0 & H1 & H2) & Hi & -> & ->).
    assert (E0 : cut (f0 ++ colon :: f1 ++ colon :: f2) = Some (f0, f1 ++ colon :: f2))
      by (apply cut_some; auto).
    assert (E1 : cut (f1 ++ colon :: f2) = Some (f1, f2)) by (apply cut_some; auto).
    apply cut_none in H2. apply Atoi_ok in Hi.
    destruct (f0 ++ colon :: f1 ++ colon :: f2) eqn:E; [destruct f0; discriminate|].
    now rewrite E0, Hi, E1, H2.
Qed.

(** ** Collapsing of runs *)

Lemma rle_nil (s : bytes) : rle s = [] -> s = [].
Proof.
  destruct s as [|c s]; [reflexivity|]. simpl.
  destruct (rle s) as [|[c' n] r]; [discriminate|].
  destruct (Ascii.eqb c c'); discriminate.
Qed.

Lemma rle_head (s : bytes) c n r : rle s = (c, n) :: r -> exists s', s = c :: s'.
Proof.
  destruct s as [|x s]; [discriminate|]. simpl.
  destruct (rle s) as [|[c' n'] r'].
  - intros [= <- _ _]. now exists s.
  - destruct (Ascii.eqb x c'); intros [= <- _ _]; now exists s.
Qed.

Lemma collapseFrom_rle (s : bytes) : forall (p : ascii) (k : Z),
  0 <= k ->
  collapseFrom p k s =
  match rle s with
  | [] => []
  | (c, n) :: r =>
      repeat c (Nat.min n (if Ascii.eqb c p then Z.to_nat (2 - k) else 3))
      ++ expand (map trunc3 r)
  end.
Proof.
  induction s as [|c s IH]; intros p k Hk; [reflexivity|].
  cbn [collapseFrom rle].
  assert (Hlt : k + 1 < 3 -> Z.to_nat (2 - k) = S (Z.to_nat (1 - k))) by lia.
  assert (Hge : 3 <= k + 1 -> Z.to_nat (2 - k) = 0%nat /\ Z.to_nat (1 - k) = 0%nat) by lia.
  destruct (rle s) as [|[c' n'] r'] eqn:E.
  - apply rle_nil in E; subst s. cbn [collapseFrom map expand flat_map app].
    destruct (Ascii.eqb c p); [|reflexivity].
    destruct (k + 1 <? 3) eqn:Ek.
    + apply Z.ltb_lt in Ek. rewrite (Hlt Ek). reflexivity.
    + apply Z.ltb_ge in Ek. rewrite (proj1 (Hge Ek)). reflexivity.
  - destruct (Ascii.eqb c c') eqn:Ecc.
    + apply Ascii.eqb_eq in Ecc; subst c'.
      destruct (Ascii.eqb c p) eqn:Ep.
      * rewrite (IH p (k + 1)) by lia. rewrite Ep.
        replace (2 - (k + 1)) with (1 - k) by lia.
        destruct (k + 1 <? 3) eqn:Ek.
        -- apply Z.ltb_lt in Ek. rewrite (Hlt Ek). reflexivity.
        -- apply Z.ltb_ge in Ek. destruct (Hge Ek) as [-> ->].
           now rewrite !Nat.min_0_r.
      * rewrite (IH c 0) by lia. rewrite Ascii.eqb_refl. reflexivity.
    + assert (Ecc' : Ascii.eqb c' c = false) by (now rewrite Ascii.eqb_sym).
      destruct (Ascii.eqb c p) eqn:Ep.
      * apply Ascii.eqb_eq in Ep; subst p.
        rewrite (IH c (k + 1)) by lia. rewrite Ecc'.
        destruct (k + 1 <? 3) eqn:Ek.
        -- apply Z.ltb_lt in Ek. rewrite (Hlt Ek). reflexivity.
        -- apply Z.ltb_ge in Ek. rewrite (proj1 (Hge Ek)). reflexivity.
      * rewrite (IH c 0) by lia. rewrite Ecc'. reflexivity.
Qed.

Lemma collapseFrom_collapseRuns (s : bytes) :
  noColon s -> collapseFrom colon 0 s = collapseRuns 3 s.
Proof.
  intros Hn. rewrite collapseFrom_rle by lia. unfold collapseRuns.
  destruct (rle s) as [|[c n] r] eqn:E; [reflexivity|].
  destruct (rle_head _ _ _ _ E) as [s' ->].
  destruct (Ascii.eqb c colon) eqn:Ec.
  - apply Ascii.eqb_eq in Ec; subst. exfalso; apply Hn; now left.
  - reflexivity.
Qed.

Lemma collapseFrom_runs (s : bytes) : forall (p : ascii) (k : Z),
  0 <= k ->
  (maxRun (collapseFrom p k s) <= 3)%nat /\
  (runLen p (collapseFrom p k s) <= Z.to_nat (2 - k))%nat.
Proof.
  induction s as [|c s IH]; intros p k Hk; cbn [collapseFrom]; [cbn; lia|].
  destruct (Ascii.eqb c p) eqn:Ep.
  - apply Ascii.eqb_eq in Ep; subst c.
    destruct (IH p (k + 1) ltac:(lia)) as [IH1 IH2].
    replace (2 - (k + 1)) with (1 - k) in IH2 by lia.
    destruct (k + 1 <? 3) eqn:Ek.
    + apply Z.ltb_lt in Ek. cbn [maxRun runLen]. rewrite Ascii.eqb_refl. lia.
    + apply Z.ltb_ge in Ek. lia.
  - destruct (IH c 0 ltac:(lia)) as [IH1 IH2]. cbn [maxRun runLen]. rewrite Ep.
    change (Z.to_nat (2 - 0)) with 2%nat in IH2. lia.
Qed.

(** ** The common-substring filter *)

Section Filter.

Context {ext : Externals}.

Lemma rollSums_length (s : bytes) (st : rollingState) :
  List.length (rollSums st s) = List.length s.
Proof. revert st; induction s as [|c s IH]; intros st; simpl; auto. Qed.

Lemma rollSums_nth (s : bytes) : forall (st : rollingState) (k : nat),
  (k < List.length s)%nat ->
  nth k (rollSums st s) 0 = rollSum (rollBytes st (firstn (S k) s)).
Proof.
  induction s as [|c s IH]; intros st k Hk; simpl in Hk; [lia|].
  destruct k as [|k]; simpl.
  - reflexivity.
  - rewrite IH by lia. reflexivity.
Qed.

Lemma slice_window (h : bytes) (i : nat) :
  slice h i (i + rollingWindow) = firstn rollingWindow (skipn i h).
Proof. unfold slice. now replace (i + rollingWindow - i)%nat with rollingWindow by lia. Qed.

Lemma matchHashes_true (h1 h2 : bytes) (j : nat) (h : Z) (hashes : list Z) :
  forall i : nat,
    matchHashes h1 h2 j h i hashes = true <->
    exists k, (k < List.length hashes)%nat /\ nth k hashes 0 = h /\
              firstn rollingWindow (skipn (i + k) h1)
              = firstn rollingWindow (skipn j h2).
Proof.
  induction hashes as [|x hashes IH]; intros i; simpl.
  - split; [discriminate | intros (k & Hk & _); lia].
  - rewrite !slice_window.
    destruct ((x =? h) && bytes_eqb _ _) eqn:E.
    + apply andb_true_iff in E as [E1 E2].
      apply Z.eqb_eq in E1. apply bytes_eqb_eq in E2.
      split; [intros _|reflexivity].
      exists 0%nat. rewrite Nat.add_0_r. repeat split; auto; lia.
    + rewrite IH. split.
      * intros (k & Hk & Hn & Hs). exists (S k).
        rewrite Nat.add_succ_r. repeat split; auto; lia.
      * intros (k & Hk & Hn & Hs). destruct k as [|k].
        -- rewrite Nat.add_0_r in Hs. simpl in Hn.
           apply andb_false_iff in E as [E|E].
           ++ apply Z.eqb_neq in E. contradiction.
           ++ rewrite (proj2 (bytes_eqb_eq _ _) Hs) in E. discriminate.
        -- exists k. rewrite Nat.add_succ_r in Hs. repeat split; auto; lia.
Qed.

Lemma scanWindows_true (h1 h2 : bytes) (hashes : list Z) (rest : bytes) :
  forall (st : rollingState) (j : nat),
    scanWindows h1 h2 hashes st j rest = true <->
    exists m, (m < List.length rest)%nat /\
              matchHashes h1 h2 (j + m)
                (rollSum (rollBytes st (firstn (S m) rest))) 0 hashes = true.
Proof.
  induction rest as [|c rest IH]; intros st j; simpl.
  - split; [discriminate | intros (m & Hm & _); lia].
  - destruct (matchHashes h1 h2 j (rollSum (rollHash st c)) 0 hashes) eqn:E.
    + split; [intros _|reflexivity]. exists 0%nat. rewrite Nat.add_0_r.
      split; [lia | exact E].
    + rewrite IH. split.
      * intros (m & Hm & H). exists (S m). rewrite Nat.add_succ_r.
        split; [lia | exact H].
      * intros (m & Hm & H). destruct m as [|m].
        -- rewrite Nat.add_0_r in H. simpl in H. congruence.
        -- exists m. rewrite Nat.add_succ_r in H. split; [lia | exact H].
Qed.

Lemma rollBytes_app (st : rollingState) (a b : bytes) :
  rollBytes (rollBytes st a) b = rollBytes st (a ++ b).
Proof. unfold rollBytes. now rewrite fold_left_app. Qed.

Lemma firstn_add_skipn (a b : nat) (l : bytes) :
  firstn (a + b) l = firstn a l ++ firstn b (skipn a l).
Proof.
  revert l; induction a as [|a IH]; intros l; simpl; [reflexivity|].
  destruct l as [|x l]; simpl; [now rewrite firstn_nil | now rewrite IH].
Qed.

(** The checksum of the window of [h] that starts at [i], as the two loops
    compute it. *)
Lemma window_sum (h : bytes) (i : nat) :
  (1 <= rollingWindow)%nat ->
  rollSum (rollBytes (rollBytes rollingZero (firstn (rollingWindow - 1) h))
                     (firstn (S i) (skipn (rollingWindow - 1) h)))
  = rollSum (rollBytes rollingZero
               (firstn i h ++ firstn rollingWindow (skipn i h))).
Proof.
  intros HW. rewrite rollBytes_app, <- !firstn_add_skipn.
  f_equal. f_equal. f_equal. lia.
Qed.

Lemma hasCommonSubstring_true (h1 h2 : bytes) :
  (1 <= rollingWindow)%nat -> windowed ->
  hasCommonSubstring h1 h2 = true <-> commonWindow rollingWindow h1 h2.
Proof.
  intros HW Hwin. unfold hasCommonSubstring, commonWindow.
  destruct ((_ <? _)%nat || (_ <? _)%nat) eqn:Elen.
  - split; [discriminate|]. intros (i & j & Hi & Hj & _).
    apply orb_true_iff in Elen as [E|E]; apply Nat.ltb_lt in E; lia.
  - apply orb_false_iff in Elen as [E1 E2].
    apply Nat.ltb_ge in E1. apply Nat.ltb_ge in E2.
    rewrite scanWindows_true. split.
    + intros (m & Hm & H). apply matchHashes_true in H as (k & Hk & _ & Hs).
      rewrite rollSums_length in Hk. rewrite length_skipn in Hm, Hk.
      exists k, m. cbn [Nat.add] in Hs. repeat split; auto; lia.
    + intros (i & j & Hi & Hj & Hs). exists j.
      rewrite length_skipn. split; [lia|].
      apply matchHashes_true. exists i.
      rewrite rollSums_length, length_skipn. split; [lia|].
      cbn [Nat.add]. split; [|exact Hs].
      rewrite rollSums_nth by (rewrite length_skipn; lia).
      rewrite !window_sum by exact HW. rewrite Hs.
      apply Hwin. rewrite length_firstn, length_skipn. lia.
Qed.

(** A match is confirmed by comparing the two windows, whatever the
    checksum is. *)
Lemma hasCommonSubstring_sound (h1 h2 : bytes) :
  hasCommonSubstring h1 h2 = true -> commonWindow rollingWindow h1 h2.
Proof.
  unfold hasCommonSubstring, commonWindow.
  destruct ((_ <? _)%nat || (_ <? _)%nat) eqn:Elen; [discriminate|].
  apply orb_false_iff in Elen as [E1 E2].
  apply Nat.ltb_ge in E1. apply Nat.ltb_ge in E2.
  rewrite scanWindows_true. intros (m & Hm & H).
  apply matchHashes_true in H as (k & Hk & _ & Hs).
  rewrite rollSums_length in Hk. rewrite length_skipn in Hm, Hk.
  exists k, m. cbn [Nat.add] in Hs. repeat split; auto; lia.
Qed.

Lemma commonWindow_sym (w : nat) (h1 h2 : bytes) :
  commonWindow w h1 h2 -> commonWindow w h2 h1.
Proof. intros (i & j & Hi & Hj & H). exists j, i. auto. Qed.

Lemma hasCommonSubstring_sym (h1 h2 : bytes) :
  (1 <= rollingWindow)%nat -> windowed ->
  hasCommonSubstring h1 h2 = hasCommonSubstring h2 h1.
Proof.
  intros HW Hwin.
  destruct (hasCommonSubstring h1 h2) eqn:E1, (hasCommonSubstring h2 h1) eqn:E2;
    auto.
  - apply hasCommonSubstring_true, commonWindow_sym, hasCommonSubstring_true in E1;
      auto. congruence.
  - apply hasCommonSubstring_true, commonWindow_sym, hasCommonSubstring_true in E2;
      auto. congruence.
Qed.

Lemma hasCommonSubstring_short (h1 h2 : bytes) :
  (List.length h1 < rollingWindow)%nat \/ (List.length h2 < rollingWindow)%nat ->
  hasCommonSubstring h1 h2 = false.
Proof.
  intros H. unfold hasCommonSubstring.
  destruct H as [H|H]; apply Nat.ltb_lt in H; rewrite H;
    [reflexivity | now rewrite orb_true_r].
Qed.

Lemma hasCommonSubstring_long (h1 h2 : bytes) :
  hasCommonSubstring h1 h2 = true ->
  (rollingWindow <= List.length h1)%nat /\ (rollingWindow <= List.length h2)%nat.
Proof.
  unfold hasCommonSubstring.
  destruct (List.length h1 <? rollingWindow)%nat eqn:E1; [discriminate|].
  destruct (List.length h2 <? rollingWindow)%nat eqn:E2; [discriminate|].
  apply Nat.ltb_ge in E1. apply Nat.ltb_ge in E2. auto.
Qed.

End Filter.

(** ** math.Min and math.Max are commutative *)

Lemma SFcompare_antisym (x y : float64) :
  SFcompare y x = option_map CompOpp (SFcompare x y).
Proof.
  destruct x as [sx|sx| |sx mx ex], y as [sy|sy| |sy my ey]; simpl;
    try reflexivity; try (destruct sx; reflexivity); try (destruct sy; reflexivity);
    try (destruct sx, sy; reflexivity).
  change (Pos.compare_cont Eq my mx) with (Pos.compare my mx).
  change (Pos.compare_cont Eq mx my) with (Pos.compare mx my).
  rewrite (Z.compare_antisym ex ey), (Pos.compare_antisym mx my).
  destruct sx, sy; try reflexivity;
    destruct (ex ?= ey); simpl; try reflexivity;
    destruct (mx ?= my)%positive; reflexivity.
Qed.

Lemma SFcompare_Eq (x y : float64) :
  SFcompare x y = Some Eq -> x = y \/ (f64_isZero x = true /\ f64_isZero y = true).
Proof.
  destruct x as [sx|sx| |sx mx ex], y as [sy|sy| |sy my ey]; simpl;
    try discriminate; try (destruct sx; discriminate); try (destruct sy; discriminate).
  - right; auto.
  - destruct sx, sy; try discriminate; left; reflexivity.
  - change (Pos.compare_cont Eq mx my) with (Pos.compare mx my).
    destruct sx, sy; try discriminate;
      destruct (ex ?= ey) eqn:Ee; try discriminate;
      destruct (mx ?= my)%positive eqn:Em; try discriminate;
      apply Z.compare_eq in Ee; apply Pos.compare_eq in Em; subst; left; reflexivity.
Qed.

Lemma SFltb_cases (x y : float64) :
  f64_isNaN x = false -> f64_isNaN y = false ->
  f64_isZero x && f64_isZero y = false ->
  (SFltb x y = true /\ SFltb y x = false) \/
  (SFltb x y = false /\ SFltb y x = true) \/
  (SFltb x y = false /\ SFltb y x = false /\ x = y).
Proof.
  intros Hx Hy Hz. unfold SFltb. rewrite (SFcompare_antisym x y).
  destruct (SFcompare x y) as [[| |]|] eqn:E; simpl; auto.
  - apply SFcompare_Eq in E as [E|[E1 E2]]; auto.
    rewrite E1, E2 in Hz. discriminate.
  - destruct x, y; simpl in *; discriminate.
Qed.

Lemma math_Min_comm (x y : float64) : math_Min x y = math_Min y x.
Proof.
  unfold math_Min. rewrite (orb_comm (f64_isInf y true)), (orb_comm (f64_isNaN y)).
  destruct (f64_isInf x true || f64_isInf y true); [reflexivity|].
  destruct (f64_isNaN x || f64_isNaN y) eqn:En; [reflexivity|].
  apply orb_false_iff in En as [Hx Hy].
  rewrite (andb_comm (f64_isZero y)).
  destruct (f64_isZero x && f64_isZero y) eqn:Ez.
  - destruct x as [[|]| | |], y as [[|]| | |]; try discriminate; reflexivity.
  - destruct (SFltb_cases x y Hx Hy Ez) as [[-> ->]|[[-> ->]|(-> & -> & ->)]];
      reflexivity.
Qed.

Lemma math_Max_comm (x y : float64) : math_Max x y = math_Max y x.
Proof.
  unfold math_Max. rewrite (orb_comm (f64_isInf y false)), (orb_comm (f64_isNaN y)).
  destruct (f64_isInf x false || f64_isInf y false); [reflexivity|].
  destruct (f64_isNaN x || f64_isNaN y) eqn:En; [reflexivity|].
  apply orb_false_iff in En as [Hx Hy].
  rewrite (andb_comm (f64_isZero y)).
  destruct (f64_isZero x && f64_isZero y) eqn:Ez.
  - destruct x as [[|]| | |], y as [[|]| | |]; try discriminate; reflexivity.
  - destruct (SFltb_cases x y Hx Hy Ez) as [[-> ->]|[[-> ->]|(-> & -> & ->)]];
      reflexivity.
Qed.

(** ** float64 of the integers below 2^53 *)

Lemma digits2_size (p : positive) : digits2_pos p = Pos.size p.
Proof. induction p; simpl; congruence. Qed.

Lemma size_iter_xO (m k : positive) :
  Pos.size (Pos.iter xO m k) = (Pos.size m + k)%positive.
Proof.
  induction k using Pos.peano_ind.
  - simpl. now rewrite Pos.add_1_r.
  - rewrite Pos.iter_succ. simpl. rewrite IHk. lia.
Qed.

Lemma iter_xO_mul (m k : positive) :
  Zpos (Pos.iter xO m k) = Zpos m * 2 ^ Zpos k.
Proof.
  induction k using Pos.peano_ind.
  - simpl. lia.
  - rewrite Pos.iter_succ, Pos2Z.inj_xO, IHk, Pos2Z.inj_succ, Z.pow_succ_r by lia. lia.
Qed.

Lemma binary_round_aux_exact (sx : bool) (m : positive) (e : Z) :
  digits2_pos m = 53%positive -> -1074 <= e <= 971 ->
  binary_round_aux 53 1024 sx (Zpos m) e loc_Exact = S754_finite sx m e.
Proof.
  intros Hd He.
  assert (Hs : shr_fexp 53 1024 (Zpos m) e loc_Exact
               = ({| shr_m := Zpos m; shr_r := false; shr_s := false |}, e)).
  { unfold shr_fexp, fexp, emin, Zdigits2. rewrite Hd.
    replace (Z.max (53 + e - 53) (3 - 1024 - 53)) with e by lia.
    rewrite Z.sub_diag. reflexivity. }
  unfold binary_round_aux. rewrite Hs. cbn [shr_m loc_of_shr_record round_nearest_even].
  rewrite Hs. cbn [shr_m].
  replace (e <=? 1024 - 53) with true by (symmetry; apply Z.leb_le; lia).
  reflexivity.
Qed.

Lemma float64_of_pos (m : positive) :
  Zpos m < 2 ^ 53 ->
  float64_of_int (Zpos m) = S754_finite false (mantissa m) (Zpos (Pos.size m) - 53).
Proof.
  intros Hm.
  assert (Hsz : (Pos.size m <= 53)%positive).
  { destruct (Pos.leb_spec (Pos.size m) 53) as [H|H]; [exact H|exfalso].
    pose proof (Pos.size_le m) as Hle.
    assert (2 ^ 54 <= Zpos (2 ^ Pos.size m)).
    { rewrite Pos2Z.inj_pow. apply Z.pow_le_mono_r; lia. }
    lia. }
  unfold float64_of_int, binary_normalize, binary_round, shl_align, fexp, emin.
  rewrite digits2_size.
  replace (Z.max (Zpos (Pos.size m) + 0 - 53) (3 - 1024 - 53))
    with (Zpos (Pos.size m) - 53) by lia.
  rewrite Z.sub_0_r. unfold mantissa.
  destruct (Zpos (Pos.size m) - 53) as [|q|q] eqn:Eq.
  - replace (53 - Zpos (Pos.size m)) with 0 by lia.
    apply binary_round_aux_exact; [|lia]. rewrite digits2_size. lia.
  - lia.
  - replace (53 - Zpos (Pos.size m)) with (Zpos q) by lia.
    apply binary_round_aux_exact; [|lia].
    rewrite digits2_size, size_iter_xO. lia.
Qed.

Lemma size_mono (a b : positive) :
  (a <= b)%positive -> (Pos.size a <= Pos.size b)%positive.
Proof.
  intros Hab.
  destruct (Pos.leb_spec (Pos.size a) (Pos.size b)) as [H|H]; [exact H|exfalso].
  pose proof (Pos.size_le a) as Ha. pose proof (Pos.size_gt b) as Hb.
  assert (Hp : 2 * 2 ^ Zpos (Pos.size b) <= 2 ^ Zpos (Pos.size a)).
  { rewrite <- Z.pow_succ_r by lia. apply Z.pow_le_mono_r; lia. }
  assert (Ha' : 2 ^ Zpos (Pos.size a) <= 2 * Zpos a).
  { rewrite <- Pos2Z.inj_pow. change (2 * Zpos a) with (Zpos a~0). lia. }
  assert (Hb' : Zpos b < 2 ^ Zpos (Pos.size b)).
  { rewrite <- Pos2Z.inj_pow. lia. }
  lia.
Qed.

Lemma size_small (m : positive) : Zpos m < 2 ^ 53 -> (Pos.size m <= 53)%positive.
Proof.
  intros Hm.
  destruct (Pos.leb_spec (Pos.size m) 53) as [H|H]; [exact H|exfalso].
  pose proof (Pos.size_le m) as Hle.
  assert (2 ^ 54 <= Zpos (2 ^ Pos.size m)).
  { rewrite Pos2Z.inj_pow. apply Z.pow_le_mono_r; lia. }
  lia.
Qed.

Lemma mantissa_val (m : positive) :
  Zpos m < 2 ^ 53 ->
  Zpos (mantissa m) = Zpos m * 2 ^ (53 - Zpos (Pos.size m)).
Proof.
  intros Hm. pose proof (size_small m Hm) as Hs. unfold mantissa.
  destruct (53 - Zpos (Pos.size m)) as [|k|k] eqn:E.
  - lia.
  - apply iter_xO_mul.
  - lia.
Qed.

Lemma SFltb_of_pos (a b : positive) :
  Zpos a < 2 ^ 53 -> Zpos b < 2 ^ 53 ->
  SFltb (float64_of_int (Zpos a)) (float64_of_int (Zpos b)) = (Zpos a <? Zpos b).
Proof.
  intros Ha Hb. rewrite !float64_of_pos by assumption.
  unfold SFltb, SFcompare.
  change (Pos.compare_cont Eq (mantissa a) (mantissa b))
    with (Pos.compare (mantissa a) (mantissa b)).
  destruct (Z.compare_spec (Zpos (Pos.size a) - 53) (Zpos (Pos.size b) - 53))
    as [E|E|E].
  - rewrite Pos2Z.inj_compare, !mantissa_val by assumption.
    replace (Pos.size b) with (Pos.size a) by lia.
    assert (Hp : 0 < 2 ^ (53 - Zpos (Pos.size a)))
      by (apply Z.pow_pos_nonneg; [lia | pose proof (size_small a Ha); lia]).
    destruct (Z.compare_spec (Zpos a * 2 ^ (53 - Zpos (Pos.size a)))
                             (Zpos b * 2 ^ (53 - Zpos (Pos.size a))));
      destruct (Z.ltb_spec (Zpos a) (Zpos b)); try reflexivity; exfalso; nia.
  - symmetry. apply Z.ltb_lt.
    destruct (Z.lt_ge_cases (Zpos a) (Zpos b)) as [H|H]; [exact H|exfalso].
    pose proof (size_mono b a ltac:(lia)). lia.
  - symmetry. apply Z.ltb_ge.
    destruct (Z.lt_ge_cases (Zpos a) (Zpos b)) as [H|H]; [exfalso|lia].
    pose proof (size_mono a b ltac:(lia)). lia.
Qed.

Lemma math_Min_of_int (a b : Z) :
  0 <= a < 2 ^ 53 -> 0 <= b < 2 ^ 53 ->
  math_Min (float64_of_int a) (float64_of_int b) = float64_of_int (Z.min a b).
Proof.
  intros Ha Hb. destruct a as [|a|a], b as [|b|b]; try lia.
  - reflexivity.
  - rewrite Z.min_l by lia. rewrite (float64_of_pos b) by lia. reflexivity.
  - rewrite Z.min_r by lia. rewrite (float64_of_pos a) by lia. reflexivity.
  - pose proof (SFltb_of_pos a b ltac:(lia) ltac:(lia)) as H.
    unfold math_Min. rewrite H.
    rewrite (float64_of_pos a), (float64_of_pos b) by lia.
    cbn [f64_isInf f64_isNaN f64_isZero orb andb].
    destruct (Z.ltb_spec (Zpos a) (Zpos b)).
    + rewrite Z.min_l by lia. now rewrite (float64_of_pos a) by lia.
    + rewrite Z.min_r by lia. now rewrite (float64_of_pos b) by lia.
Qed.

(** ** Block sizes *)

Lemma splitSsdeep_range (hash : bytes) (bs : Z) (p1 p2 : bytes) :
  splitSsdeep hash = (bs, p1, p2, None) -> minInt64 <= bs <= maxInt64.
Proof.
  intros H. apply splitSsdeep_ok in H as (f0 & _ & _ & _ & H & _).
  destruct H as (? & _ & _ & _ & H). exact H.
Qed.

Lemma no_mutual_double (b1 b2 : Z) :
  minInt64 <= b1 <= maxInt64 -> minInt64 <= b2 <= maxInt64 ->
  b1 = wrap64 (b2 * 2) -> b2 = wrap64 (b1 * 2) -> b1 = b2.
Proof.
  unfold wrap64, minInt64, maxInt64. intros H1 H2 E1 E2.
  Z.div_mod_to_equations. lia.
Qed.

Lemma wrap64_double_nonneg (b1 b2 : Z) :
  0 <= b1 -> 0 <= b2 <= maxInt64 -> b1 <> 2 * b2 -> b1 <> wrap64 (b2 * 2).
Proof.
  unfold wrap64, maxInt64. intros H1 H2 Hne E.
  Z.div_mod_to_equations. lia.
Qed.

(** ** Distance *)

Section Properties.

Context {ext : Externals}.

Lemma scoreDistance_sym (h1 h2 : bytes) (blockSize : Z) :
  (1 <= rollingWindow)%nat -> windowed -> distance_sym ->
  scoreDistance h1 h2 blockSize = scoreDistance h2 h1 blockSize.
Proof.
  intros HW Hwin Hd. unfold scoreDistance, matchSize.
  rewrite (hasCommonSubstring_sym h1 h2 HW Hwin), (Hd h1 h2).
  rewrite (Z.add_comm (len h1)), (math_Min_comm (float64_of_int (len h1))).
  reflexivity.
Qed.

Lemma scoreDistance_short (h1 h2 : bytes) (blockSize : Z) :
  len h1 < Z.of_nat rollingWindow \/ len h2 < Z.of_nat rollingWindow ->
  scoreDistance h1 h2 blockSize = 0.
Proof.
  intros H. unfold scoreDistance.
  rewrite hasCommonSubstring_short; [reflexivity|]. unfold len in H. lia.
Qed.

(** The dispatch of [Distance] once both signatures are parsed. *)
Lemma Distance_parsed (hash1 hash2 : bytes) b1 p11 p12 b2 p21 p22 :
  splitSsdeep hash1 = (b1, p11, p12, None) ->
  splitSsdeep hash2 = (b2, p21, p22, None) ->
  Distance hash1 hash2 =
  if (b1 =? b2) && (len p11 =? len p21) && (len p12 =? len p22)
     && bytes_eqb p11 p21 && bytes_eqb p12 p22
  then (100, None)
  else if negb (b1 =? b2) && negb (b1 =? wrap64 (b2 * 2))
          && negb (b2 =? wrap64 (b1 * 2))
  then (0, None)
  else if b1 =? b2 then
    (int_of_float64
       (math_Max (float64_of_int (scoreDistance p11 p21 b1))
                 (float64_of_int (scoreDistance p12 p22 (wrap64 (b1 * 2))))), None)
  else if b1 =? wrap64 (b2 * 2) then (scoreDistance p11 p22 b1, None)
  else (scoreDistance p12 p21 b2, None).
Proof. intros H1 H2. unfold Distance. rewrite H1, H2. reflexivity. Qed.

Lemma fast_path_iff b1 p11 p12 b2 p21 p22 :
  (b1 =? b2) && (len p11 =? len p21) && (len p12 =? len p22)
  && bytes_eqb p11 p21 && bytes_eqb p12 p22 = true
  <-> b1 = b2 /\ p11 = p21 /\ p12 = p22.
Proof.
  rewrite !andb_true_iff, !Z.eqb_eq, !bytes_eqb_eq. split.
  - intros ((((? & _) & _) & ?) & ?); auto.
  - intros (-> & -> & ->); auto.
Qed.

Lemma splitSsdeep_parsed (hash : bytes) :
  snd (splitSsdeep hash) = None ->
  exists b p1 p2, splitSsdeep hash = (b, p1, p2, None).
Proof.
  destruct (splitSsdeep hash) as [[[b p1] p2] e]. simpl. intros ->.
  now exists b, p1, p2.
Qed.

(** C6: for every string [s] that the parser accepts, [Distance(s, s)] is
    [(100, nil)]: equal block sizes and equal parts take the exact-match
    fast path. *)
Theorem C6_distance_self (s : bytes) :
  snd (splitSsdeep s) = None -> Distance s s = (100, None).
Proof.
  intros H. destruct (splitSsdeep_parsed s H) as (b & p1 & p2 & E).
  rewrite (Distance_parsed _ _ _ _ _ _ _ _ E E).
  rewrite (proj2 (fast_path_iff b p1 p2 b p1 p2)); auto.
Qed.


(** C10: when the two parsed signatures do not take the fast path and every
    part compared by the selected branch is shorter than [rollingWindow],
    [Distance] returns [(0, nil)]. *)
Theorem C10_short_parts_score_zero (hash1 hash2 : bytes) b1 p11 p12 b2 p21 p22 :
  splitSsdeep hash1 = (b1, p11, p12, None) ->
  splitSsdeep hash2 = (b2, p21, p22, None) ->
  ~ (b1 = b2 /\ p11 = p21 /\ p12 = p22) ->
  Forall (fun ab => len (fst ab) < Z.of_nat rollingWindow
                    /\ len (snd ab) < Z.of_nat rollingWindow)
         (comparedParts b1 p11 p12 b2 p21 p22) ->
  Distance hash1 hash2 = (0, None).
Proof.
  intros E1 E2 Hfast Hshort.
  rewrite (Distance_parsed _ _ _ _ _ _ _ _ E1 E2).
  destruct (_ && bytes_eqb p12 p22) eqn:Ef.
  { apply fast_path_iff in Ef. contradiction. }
  unfold comparedParts in Hshort.
  destruct (b1 =? b2) eqn:Eb; cbn [negb andb].
  - inversion Hshort as [|? ? [Ha _] Hrest]; subst.
    inversion Hrest as [|? ? [Hb _] _]; subst. cbn [fst snd] in *.
    rewrite !scoreDistance_short by auto. reflexivity.
  - destruct (b1 =? wrap64 (b2 * 2)) eqn:Ed1; cbn [negb andb].
    + inversion Hshort as [|? ? [Ha _] _]; subst. cbn [fst snd] in *.
      rewrite scoreDistance_short by auto. reflexivity.
    + destruct (b2 =? wrap64 (b1 * 2)) eqn:Ed2; cbn [negb]; [|reflexivity].
      inversion Hshort as [|? ? [Ha _] _]; subst. cbn [fst snd] in *.
      rewrite scoreDistance_short by auto. reflexivity.
Qed.

(** C2 (amended): with different block sizes, when the block size of
    [hash1] is the double of the one of [hash2] the score is
    [scoreDistance] of part 1 of [hash1] and part 2 of [hash2] with the
    block size of [hash1], the larger one; when the block size of [hash2]
    is the double, it is [scoreDistance] of part 2 of [hash1] and part 1 of
    [hash2] with the block size of [hash2]. *)
Theorem C2_double_block_size (hash1 hash2 : bytes) b1 p11 p12 b2 p21 p22 :
  splitSsdeep hash1 = (b1, p11, p12, None) ->
  splitSsdeep hash2 = (b2, p21, p22, None) ->
  b1 <> b2 ->
  (b1 = 2 * b2 -> Distance hash1 hash2 = (scoreDistance p11 p22 b1, None)) /\
  (b2 = 2 * b1 -> Distance hash1 hash2 = (scoreDistance p12 p21 b2, None)).
Proof.
  intros E1 E2 Hne.
  pose proof (splitSsdeep_range _ _ _ _ E1) as R1.
  pose proof (splitSsdeep_range _ _ _ _ E2) as R2.
  rewrite (Distance_parsed _ _ _ _ _ _ _ _ E1 E2).
  assert (F : (b1 =? b2) = false) by (now apply Z.eqb_neq).
  rewrite F. cbn [andb negb]. split; intros Hd.
  - assert (G : b1 = wrap64 (b2 * 2))
      by (rewrite Z.mul_comm, <- Hd; symmetry; now apply wrap64_id).
    rewrite (proj2 (Z.eqb_eq _ _) G). reflexivity.
  - assert (G : b2 = wrap64 (b1 * 2))
      by (rewrite Z.mul_comm, <- Hd; symmetry; now apply wrap64_id).
    assert (G' : (b1 =? wrap64 (b2 * 2)) = false).
    { apply Z.eqb_neq. intros C. apply Hne. now apply no_mutual_double. }
    rewrite G', (proj2 (Z.eqb_eq _ _) G). reflexivity.
Qed.

(** C5: for all strings [a] and [b] that the parser accepts,
    [Distance(a, b)] and [Distance(b, a)] are the same score and error, in
    every branch of the dispatch; the rolling checksum is a function of the
    window and the edit distance is symmetric. *)
Theorem C5_distance_commutative (a b : bytes) :
  (1 <= rollingWindow)%nat -> windowed -> distance_sym ->
  snd (splitSsdeep a) = None -> snd (splitSsdeep b) = None ->
  Distance a b = Distance b a.
Proof.
  intros HW Hwin Hd Ha Hb.
  destruct (splitSsdeep_parsed a Ha) as (b1 & p11 & p12 & E1).
  destruct (splitSsdeep_parsed b Hb) as (b2 & p21 & p22 & E2).
  pose proof (splitSsdeep_range _ _ _ _ E1) as R1.
  pose proof (splitSsdeep_range _ _ _ _ E2) as R2.
  rewrite (Distance_parsed _ _ _ _ _ _ _ _ E1 E2).
  rewrite (Distance_parsed _ _ _ _ _ _ _ _ E2 E1).
  rewrite (Z.eqb_sym b2 b1), (Z.eqb_sym (len p21)), (Z.eqb_sym (len p22)).
  rewrite (bytes_eqb_sym p21), (bytes_eqb_sym p22).
  destruct (_ && bytes_eqb p12 p22); [reflexivity|].
  destruct (b1 =? b2) eqn:Eb; cbn [negb andb].
  - apply Z.eqb_eq in Eb; subst b2.
    rewrite (scoreDistance_sym p21 p11), (scoreDistance_sym p22 p12) by assumption.
    now rewrite math_Max_comm.
  - apply Z.eqb_neq in Eb.
    destruct (b1 =? wrap64 (b2 * 2)) eqn:Ed1, (b2 =? wrap64 (b1 * 2)) eqn:Ed2;
      cbn [negb andb]; try reflexivity.
    + apply Z.eqb_eq in Ed1, Ed2. exfalso; apply Eb. now apply no_mutual_double.
    + now rewrite (scoreDistance_sym p22 p11).
    + now rewrite (scoreDistance_sym p21 p12).
Qed.

End Properties.

(** ** Parsing *)

Lemma cut_unique (h f r f' r' : bytes) :
  h = f ++ colon :: r -> noColon f -> cut h = Some (f', r') -> f' = f /\ r' = r.
Proof.
  intros E Hn Hc. assert (H : cut h = Some (f, r)) by (apply cut_some; auto).
  rewrite H in Hc. now inversion Hc.
Qed.

Lemma parse_cases (hash : bytes) :
  hash <> [] ->
  (parseError hash = None /\ ~ malformedText hash)
  \/ (MalformedSignature (parseError hash) /\ malformedText hash).
Proof.
  intros Hne. unfold parseError. rewrite splitSsdeep_cut.
  destruct hash as [|c s]; [contradiction|].
  destruct (cut (c :: s)) as [[f0 r0]|] eqn:E0.
  2:{ right. split; [left; reflexivity|]. left. now apply cut_none. }
  destruct (Atoi f0) as [bs [e|]] eqn:Ea.
  { right. split; [right; now exists e|]. right; left.
    apply cut_some in E0 as [E0 H0]. exists f0, r0. repeat split; auto.
    intros [v Hv]. apply Atoi_ok in Hv. congruence. }
  destruct (cut r0) as [[f1 r1]|] eqn:E1.
  2:{ right. split; [left; reflexivity|]. right; right; left.
      apply cut_some in E0 as [E0 H0]. apply cut_none in E1.
      exists f0, r0. auto. }
  destruct (cut r1) as [[f2 r2]|] eqn:E2.
  { right. split; [left; reflexivity|]. right; right; right.
    apply cut_some in E0 as [E0 H0]. apply cut_some in E1 as [E1 H1].
    apply cut_some in E2 as [E2 H2].
    exists f0, f1, r1. rewrite E0, E1. repeat split; auto.
    rewrite E2. apply in_or_app. right; now left. }
  left. split; [reflexivity|].
  intros [H|[(f0' & r & E & Hn & Hbad)|[(f0' & f1' & E & Hn & Hn1)
                                       |(f0' & f1' & r & E & Hn & Hn1 & Hin)]]].
  - apply cut_none in H. congruence.
  - destruct (cut_unique _ _ _ _ _ E Hn E0) as [-> _].
    apply Hbad. exists bs. now apply Atoi_ok.
  - destruct (cut_unique _ _ _ _ _ E Hn E0) as [_ ->].
    apply cut_none in Hn1. congruence.
  - destruct (cut_unique _ _ _ _ _ E Hn E0) as [_ ->].
    destruct (cut_unique _ _ _ _ _ eq_refl Hn1 E1) as [_ ->].
    apply cut_none in E2. contradiction.
Qed.

Lemma malformed_not_empty (e : option error) :
  MalformedSignature e -> ~ EmptyInput e.
Proof. intros [->|[n ->]]; discriminate. Qed.

Lemma malformed_not_none (e : option error) : MalformedSignature e -> e <> None.
Proof. intros [->|[n ->]]; discriminate. Qed.

Lemma parseError_empty (hash : bytes) : EmptyInput (parseError hash) <-> hash = [].
Proof.
  split.
  - intros H. destruct hash as [|c s]; [reflexivity|]. exfalso.
    destruct (parse_cases (c :: s) ltac:(discriminate)) as [[E _]|[E _]].
    + unfold EmptyInput in H. congruence.
    + now apply (malformed_not_empty _ E).
  - intros ->. reflexivity.
Qed.

Lemma parseError_malformed (hash : bytes) :
  MalformedSignature (parseError hash) <-> hash <> [] /\ malformedText hash.
Proof.
  split.
  - intros H. assert (Hne : hash <> []).
    { intros ->. apply (malformed_not_empty _ H). reflexivity. }
    split; [exact Hne|].
    destruct (parse_cases hash Hne) as [[E _]|[_ M]]; [|exact M].
    exfalso. now apply (malformed_not_none _ H).
  - intros [Hne M]. destruct (parse_cases hash Hne) as [[_ E]|[E _]];
      [contradiction | exact E].
Qed.

Lemma Distance_error {ext : Externals} (hash1 hash2 : bytes) :
  snd (Distance hash1 hash2) =
  match parseError hash1 with
  | Some e => Some e
  | None => parseError hash2
  end.
Proof.
  unfold Distance, parseError.
  destruct (splitSsdeep hash1) as [[[b1 p11] p12] [e1|]]; [reflexivity|].
  destruct (splitSsdeep hash2) as [[[b2 p21] p22] [e2|]]; [reflexivity|].
  cbn [snd].
  repeat match goal with |- context [if ?c then _ else _] => destruct c end;
    reflexivity.
Qed.

(** C1 (amended): for every input that the parser accepts, part 1 and
    part 2 are the two fields after the block size with every run of 4 or
    more identical consecutive bytes collapsed to exactly 3, so that no byte
    occurs more than three times in a row in a parsed part. *)
Theorem C1_runs_collapse_to_three (hash : bytes) (bs : Z) (part1 part2 : bytes) :
  splitSsdeep hash = (bs, part1, part2, None) ->
  exists f0 f1 f2,
    threeFields hash f0 f1 f2 /\
    part1 = collapseRuns 3 f1 /\ part2 = collapseRuns 3 f2 /\
    (maxRun part1 <= 3)%nat /\ (maxRun part2 <= 3)%nat.
Proof.
  intros H. apply splitSsdeep_ok in H as (f0 & f1 & f2 & HT & _ & -> & ->).
  exists f0, f1, f2. destruct HT as (E & H0 & H1 & H2).
  repeat split; auto using collapseFrom_collapseRuns;
    apply (collapseFrom_runs _ colon 0); lia.
Qed.

(** C4 (amended): [Distance] returns an error exactly when one of the two
    inputs fails to parse, and the error is that of the first input that
    fails; the parser fails with EmptyInput exactly on the empty string, and
    with MalformedSignature exactly on a non-empty string that has no
    separator, or whose block-size field is not an optional sign followed
    by decimal digits with a value in the 64-bit [int] (a negative block
    size is accepted), or that has no second separator, or that has a third
    one. *)
Theorem C4_errors_of_distance {ext : Externals} (hash1 hash2 : bytes) :
  (snd (Distance hash1 hash2) <> None
   <-> parseError hash1 <> None \/ parseError hash2 <> None) /\
  snd (Distance hash1 hash2)
  = match parseError hash1 with Some e => Some e | None => parseError hash2 end /\
  (forall hash, EmptyInput (parseError hash) <-> hash = []) /\
  (forall hash, MalformedSignature (parseError hash)
                <-> hash <> [] /\ malformedText hash) /\
  (forall hash, parseError hash = None \/ EmptyInput (parseError hash)
                \/ MalformedSignature (parseError hash)).
Proof.
  rewrite Distance_error.
  split; [|split; [reflexivity|split; [|split]]].
  - destruct (parseError hash1) as [e|].
    + split; [left|]; discriminate.
    + split; [now right | now intros [[]|]].
  - apply parseError_empty.
  - apply parseError_malformed.
  - intros hash. destruct hash as [|c s]; [right; left; reflexivity|].
    destruct (parse_cases (c :: s) ltac:(discriminate)) as [[E _]|[E _]]; auto.
Qed.

(** ** The edit distance of the specification *)

Lemma levenshtein_nil_l (b : bytes) : levenshtein [] b = List.length b.
Proof. destruct b; reflexivity. Qed.

Lemma levenshtein_nil_r (a : bytes) : levenshtein a [] = List.length a.
Proof. destruct a; reflexivity. Qed.

Lemma levenshtein_cons (x y : ascii) (a b : bytes) :
  levenshtein (x :: a) (y :: b)
  = Nat.min (Nat.min (S (levenshtein a (y :: b))) (S (levenshtein (x :: a) b)))
            (levenshtein a b + (if Ascii.eqb x y then 0 else 1))%nat.
Proof. reflexivity. Qed.

Lemma levenshtein_sym (a : bytes) : forall b, levenshtein a b = levenshtein b a.
Proof.
  induction a as [|x a IHa]; intros b.
  - now rewrite levenshtein_nil_l, levenshtein_nil_r.
  - induction b as [|y b IHb].
    + now rewrite levenshtein_nil_l, levenshtein_nil_r.
    + rewrite !levenshtein_cons, IHb, (IHa (y :: b)), (IHa b), (Ascii.eqb_sym y x).
      f_equal. apply Nat.min_comm.
Qed.

Lemma levenshtein_refl (a : bytes) : levenshtein a a = 0%nat.
Proof.
  induction a as [|x a IH]; [reflexivity|].
  rewrite levenshtein_cons, IH, Ascii.eqb_refl. lia.
Qed.

Lemma levenshtein_cons_r (a b : bytes) (c : ascii) :
  (levenshtein a (c :: b) <= S (levenshtein a b))%nat.
Proof.
  destruct a as [|x a].
  - rewrite !levenshtein_nil_l. cbn [List.length]. lia.
  - rewrite levenshtein_cons. lia.
Qed.

Lemma levenshtein_length (a : bytes) : forall b,
  (List.length b - List.length a <= levenshtein a b)%nat.
Proof.
  induction a as [|x a IHa]; intros b.
  - rewrite levenshtein_nil_l. lia.
  - induction b as [|y b IHb].
    + cbn [List.length]. lia.
    + rewrite levenshtein_cons.
      pose proof (IHa (y :: b)). pose proof (IHa b). cbn [List.length] in *. lia.
Qed.

Lemma levenshtein_insert (x y : bytes) (c : ascii) :
  levenshtein (x ++ y) (x ++ c :: y) = 1%nat.
Proof.
  apply Nat.le_antisymm.
  - induction x as [|z x IH]; simpl app.
    + pose proof (levenshtein_cons_r y y c). rewrite levenshtein_refl in *. lia.
    + rewrite levenshtein_cons, Ascii.eqb_refl. lia.
  - pose proof (levenshtein_length (x ++ y) (x ++ c :: y)) as H.
    rewrite !length_app in H. cbn [List.length] in H. lia.
Qed.

(** ** The rolling checksum of the format depends on the window only *)

Module SpamsumFacts.

Import Spamsum.

Lemma zero_stateOf : zero = stateOf [] (repeat 0 W).
Proof. reflexivity. Qed.

Lemma roll_stateOf (pre w : list Z) (a : Z) (c : ascii) :
  List.length w = 6%nat ->
  roll (stateOf pre (a :: w)) c = stateOf (pre ++ [a]) (w ++ [u32 c]).
Proof.
  intros Hlen.
  destruct w as [|a2 [|a3 [|a4 [|a5 [|a6 [|a7 [|]]]]]]]; try discriminate.
  unfold stateOf, roll. cbn [window h1 h2 h3 hd tl app]. f_equal.
  - unfold total, wrap32. cbn [fold_right].
    rewrite Zplus_mod_idemp_l, Zminus_mod_idemp_l. f_equal. ring.
  - unfold wrap32. cbn [weighted]. change (Z.of_nat W) with 7.
    rewrite Zminus_mod_idemp_l, Zminus_mod_idemp_r, Zplus_mod_idemp_l.
    unfold total. cbn [fold_right]. f_equal. ring.
  - unfold register. rewrite <- (app_assoc pre [a]). cbn [app].
    change (pre ++ a :: a2 :: a3 :: a4 :: a5 :: a6 :: a7 :: [u32 c])
      with (pre ++ [a; a2; a3; a4; a5; a6; a7] ++ [u32 c]).
    now rewrite (app_assoc pre), (fold_left_app _ (pre ++ _)).
Qed.

Lemma rollBytes_stateOf (s : bytes) : forall pre w,
  List.length w = W ->
  exists pre' w',
    fold_left roll s (stateOf pre w) = stateOf pre' w' /\
    pre' ++ w' = pre ++ w ++ map u32 s /\ List.length w' = W.
Proof.
  induction s as [|c s IH]; intros pre w Hlen.
  - exists pre, w. now rewrite app_nil_r.
  - destruct w as [|a w]; [discriminate|].
    cbn [fold_left]. rewrite roll_stateOf by (simpl in Hlen; unfold W in Hlen; lia).
    destruct (IH (pre ++ [a]) (w ++ [u32 c])) as (pre' & w' & E & Happ & Hl).
    { rewrite length_app. simpl in *. lia. }
    exists pre', w'. split; [exact E|]. split; [|exact Hl].
    rewrite Happ, <- !app_assoc. reflexivity.
Qed.

Lemma shiftXor_bit (h c n : Z) :
  0 <= n ->
  Z.testbit (shiftXor h c) n
  = xorb (Z.testbit h (n - 5) && (n <? 32)) (Z.testbit c n).
Proof.
  intros Hn. unfold shiftXor.
  rewrite Z.lxor_spec, Z.land_spec, Z.shiftl_spec by lia.
  rewrite Z.testbit_ones by lia.
  replace (0 <=? n) with true by (symmetry; apply Z.leb_le; lia).
  reflexivity.
Qed.

Lemma shiftXor_agree (k h h' c : Z) :
  agree k h h' -> agree (k + 5) (shiftXor h c) (shiftXor h' c).
Proof.
  intros H n Hn. destruct (Z.neg_nonneg_cases n) as [Hneg|Hpos].
  - now rewrite !Z.testbit_neg_r.
  - rewrite !shiftXor_bit by lia. rewrite (H (n - 5)) by lia. reflexivity.
Qed.

Lemma register_agree (w : list Z) : forall k h h',
  agree k h h' ->
  agree (k + 5 * Z.of_nat (List.length w)) (register w h) (register w h').
Proof.
  induction w as [|c w IH]; intros k h h' H.
  - simpl. now rewrite Z.add_0_r.
  - unfold register in *. cbn [fold_left].
    replace (k + 5 * Z.of_nat (List.length (c :: w)))
      with (k + 5 + 5 * Z.of_nat (List.length w))
      by (cbn [List.length]; lia).
    apply IH. now apply shiftXor_agree.
Qed.

Lemma register_window (w : list Z) (h : Z) :
  List.length w = W -> register w h = register w 0.
Proof.
  intros Hlen.
  assert (A : agree 35 (register w h) (register w 0)).
  { replace 35 with (0 + 5 * Z.of_nat (List.length w)) by (rewrite Hlen; reflexivity).
    apply register_agree. intros n Hn. now rewrite !Z.testbit_neg_r. }
  destruct (rev w) as [|c w'] eqn:Er.
  { apply (f_equal (@List.length Z)) in Er. rewrite length_rev, Hlen in Er.
    discriminate. }
  assert (Ew : w = rev w' ++ [c]) by (rewrite <- (rev_involutive w), Er; reflexivity).
  apply Z.bits_inj'. intros n Hn.
  destruct (Z.lt_ge_cases n 35) as [Hlt|Hge]; [now apply A|].
  rewrite Ew. unfold register. rewrite !fold_left_app. cbn [fold_left].
  rewrite !shiftXor_bit by lia.
  replace (n <? 32) with false by (symmetry; apply Z.ltb_ge; lia).
  now rewrite !andb_false_r.
Qed.

Lemma sum_stateOf (pre w : list Z) :
  List.length w = W -> sum (stateOf pre w) = sum (stateOf [] w).
Proof.
  intros Hlen. unfold sum, stateOf. cbn [h1 h2 h3 app].
  unfold register at 1. rewrite fold_left_app.
  fold (register pre 0). fold (register w (register pre 0)).
  now rewrite register_window.
Qed.

Lemma app_same_length {A : Type} (a b a' b' : list A) :
  a ++ b = a' ++ b' -> List.length b = List.length b' -> b = b'.
Proof.
  intros E Hl.
  assert (Ha : List.length a = List.length a').
  { apply (f_equal (@List.length A)) in E. rewrite !length_app in E. lia. }
  revert a' E Ha. induction a as [|x a IH]; intros [|x' a'] E Ha;
    simpl in *; try discriminate; auto.
  inversion E. eapply IH; eauto.
Qed.

Theorem spamsum_windowed : @windowed format.
Proof.
  intros s t w Hlen.
  change (List.length w = W) in Hlen.
  change (sum (fold_left roll (s ++ w) zero) = sum (fold_left roll (t ++ w) zero)).
  rewrite zero_stateOf.
  destruct (rollBytes_stateOf (s ++ w) [] (repeat 0 W) eq_refl)
    as (p1 & w1 & -> & E1 & L1).
  destruct (rollBytes_stateOf (t ++ w) [] (repeat 0 W) eq_refl)
    as (p2 & w2 & -> & E2 & L2).
  rewrite map_app, !app_assoc in E1, E2.
  apply app_same_length in E1; [|now rewrite length_map, L1].
  apply app_same_length in E2; [|now rewrite length_map, L2].
  subst w1 w2.
  rewrite (sum_stateOf p1), (sum_stateOf p2) by (now rewrite length_map).
  reflexivity.
Qed.

End SpamsumFacts.

(** ** The score *)

Section ScoreProperties.

Context {ext : Externals}.

Lemma max_small (d1 d2 : Z) :
  0 <= d1 <= 100 -> 0 <= d2 <= 100 ->
  int_of_float64 (math_Max (float64_of_int d1) (float64_of_int d2)) = Z.max d1 d2.
Proof.
  intros H1 H2.
  assert (H : forallb
                (fun n =>
                   forallb
                     (fun m =>
                        int_of_float64
                          (math_Max (float64_of_int (Z.of_nat n))
                                    (float64_of_int (Z.of_nat m)))
                        =? Z.max (Z.of_nat n) (Z.of_nat m))
                     (List.seq 0 101))
                (List.seq 0 101) = true) by (vm_compute; reflexivity).
  rewrite forallb_forall in H. specialize (H (Z.to_nat d1)).
  rewrite in_seq in H. specialize (H ltac:(lia)).
  rewrite forallb_forall in H. specialize (H (Z.to_nat d2)).
  rewrite in_seq in H. specialize (H ltac:(lia)).
  rewrite !Z2Nat.id in H by lia. now apply Z.eqb_eq in H.
Qed.

Lemma oneInsertionApart_length (a b : bytes) :
  oneInsertionApart a b -> List.length a <> List.length b.
Proof.
  intros [(x & c & y & -> & ->)|(x & c & y & -> & ->)];
    rewrite !length_app; cbn [List.length]; lia.
Qed.

(** The score of two parts one insertion apart that pass the filter. *)
Lemma scoreDistance_one_insertion (h1 h2 : bytes) (blockSize : Z) :
  (1 <= rollingWindow)%nat -> windowed -> distance h1 h2 = 1 ->
  commonWindow rollingWindow h1 h2 ->
  0 < spamSumLength <= 100 -> len h1 + len h2 <= spamSumLength ->
  blockSizeSmallLimit <= blockSize \/ 0 < matchSize h1 h2 blockSize ->
  0 < scoreDistance h1 h2 blockSize < 100.
Proof.
  intros HW Hwin Hd Hc HL Hn Hbs. unfold scoreDistance.
  assert (Hf : hasCommonSubstring h1 h2 = true) by (now apply hasCommonSubstring_true).
  destruct (hasCommonSubstring_long _ _ Hf) as [L1 L2].
  rewrite Hf, Hd. cbn [negb].
  set (cap := matchSize h1 h2 blockSize) in *.
  cut (0 < 100 - 100 * (1 * spamSumLength ÷ (len h1 + len h2)) ÷ spamSumLength < 100).
  { intros Hs. destruct (Z.leb_spec blockSizeSmallLimit blockSize) as [Hle|Hlt];
      [exact Hs|].
    destruct Hbs as [Hbs|Hbs]; [lia|].
    match goal with |- context [if ?x <? ?y then _ else _] =>
      destruct (Z.ltb_spec x y) end; lia. }
  unfold len in *. set (n := Z.of_nat (List.length h1) + Z.of_nat (List.length h2)) in *.
  assert (Hn2 : 2 <= n) by lia.
  rewrite Z.mul_1_l, (Z.quot_div_nonneg spamSumLength n) by lia.
  assert (Hq1 : 1 <= spamSumLength / n) by (apply Z.div_le_lower_bound; lia).
  assert (Hq2 : spamSumLength / n < spamSumLength)
    by (apply Z.div_lt_upper_bound; nia).
  rewrite Z.quot_div_nonneg by lia.
  assert (Hp1 : 1 <= 100 * (spamSumLength / n) / spamSumLength)
    by (apply Z.div_le_lower_bound; lia).
  assert (Hp2 : 100 * (spamSumLength / n) / spamSumLength < 100)
    by (apply Z.div_lt_upper_bound; lia).
  lia.
Qed.

(** C8 (amended): when the filter passes, [scoreDistance] computes, in
    this order and with integer division that drops the remainder,
    [scaled = d*L/(len1+len2)], [pct = 100*scaled/L], [score = 100-pct];
    only a block size below the small-block limit caps the score, at the
    [float64] product [blockSize / blockMin * min(len1, len2)] truncated
    towards zero (the quotient is a floating-point one, not an integer
    division); otherwise the score is returned as it is.  Lengths below
    2^53 are exact in [float64]. *)
Theorem C8_score_normalization (h1 h2 : bytes) (blockSize : Z) :
  (1 <= rollingWindow)%nat -> 0 < spamSumLength -> 0 <= distance h1 h2 ->
  len h1 < 2 ^ 53 -> len h2 < 2 ^ 53 ->
  hasCommonSubstring h1 h2 = true ->
  scoreDistance h1 h2 blockSize
  = normalize (distance h1 h2) (len h1) (len h2) blockSize.
Proof.
  intros HW HL Hd B1 B2 Hf. destruct (hasCommonSubstring_long _ _ Hf) as [L1 L2].
  unfold scoreDistance, normalize, matchSize, matchCap. rewrite Hf. cbn [negb].
  rewrite math_Min_of_int by (unfold len in *; lia).
  assert (Hn : 0 < len h1 + len h2) by (unfold len; lia).
  rewrite (Z.quot_div_nonneg (distance h1 h2 * spamSumLength)) by nia.
  assert (Hs : 0 <= distance h1 h2 * spamSumLength / (len h1 + len h2))
    by (apply Z.div_pos; nia).
  rewrite Z.quot_div_nonneg by lia.
  rewrite (Z.ltb_antisym blockSizeSmallLimit blockSize).
  destruct (blockSizeSmallLimit <=? blockSize); cbn [negb]; [reflexivity|].
  match goal with |- (if ?m <? ?d then _ else _) = _ =>
    destruct (Z.ltb_spec m d); lia end.
Qed.

(** C9 (amended): two parsed signatures with the same block size whose
    parts are the same except that one part of one of them has one byte
    more, inserted anywhere: when the two differing parts share a window of
    [rollingWindow] bytes and are together at most [spamSumLength] long,
    the block size that they are scored with is at least the small-block
    limit or has a positive cap, and the other part scores less than 100 by
    itself (as it does when it is shorter than the window), the score is
    strictly between 0 and 100. *)
Theorem C9_single_insertion (hash1 hash2 : bytes) (b : Z) (p1 p2 q1 q2 : bytes) :
  (1 <= rollingWindow)%nat -> windowed -> distance_insert ->
  0 < spamSumLength <= 100 ->
  splitSsdeep hash1 = (b, p1, p2, None) ->
  splitSsdeep hash2 = (b, q1, q2, None) ->
  (oneInsertionApart p1 q1 /\ p2 = q2 /\
   0 <= scoreDistance p2 p2 (wrap64 (b * 2)) < 100 /\
   commonWindow rollingWindow p1 q1 /\ len p1 + len q1 <= spamSumLength /\
   (blockSizeSmallLimit <= b \/ 0 < matchSize p1 q1 b))
  \/ (p1 = q1 /\ oneInsertionApart p2 q2 /\
      0 <= scoreDistance p1 p1 b < 100 /\
      commonWindow rollingWindow p2 q2 /\ len p2 + len q2 <= spamSumLength /\
      (blockSizeSmallLimit <= wrap64 (b * 2)
       \/ 0 < matchSize p2 q2 (wrap64 (b * 2)))) ->
  exists score, Distance hash1 hash2 = (score, None) /\ 0 < score < 100.
Proof.
  intros HW Hwin Hins HL E1 E2 Hcase.
  rewrite (Distance_parsed _ _ _ _ _ _ _ _ E1 E2).
  assert (Hfast : (b =? b) && (len p1 =? len q1) && (len p2 =? len q2)
                  && bytes_eqb p1 q1 && bytes_eqb p2 q2 = false).
  { destruct (_ && bytes_eqb p2 q2) eqn:Ef; [|reflexivity].
    apply fast_path_iff in Ef as (_ & F1 & F2). subst q1 q2.
    destruct Hcase as [(H & _)|(_ & H & _)];
      apply oneInsertionApart_length in H; contradiction. }
  rewrite Hfast, Z.eqb_refl. cbn [negb andb].
  destruct Hcase as [(Hi & <- & Hs & Hc & Hn & Hb)|(<- & Hi & Hs & Hc & Hn & Hb)].
  - pose proof (scoreDistance_one_insertion p1 q1 b HW Hwin (Hins _ _ Hi) Hc HL Hn Hb)
      as Hd.
    rewrite max_small by lia.
    eexists; split; [reflexivity | lia].
  - pose proof (scoreDistance_one_insertion p2 q2 _ HW Hwin (Hins _ _ Hi) Hc HL Hn Hb)
      as Hd.
    rewrite max_small by lia.
    eexists; split; [reflexivity | lia].
Qed.

Lemma scoreDistance_no_window (h1 h2 : bytes) (blockSize : Z) :
  ~ commonWindow rollingWindow h1 h2 -> scoreDistance h1 h2 blockSize = 0.
Proof.
  intros H. unfold scoreDistance.
  destruct (hasCommonSubstring h1 h2) eqn:E; [|reflexivity].
  apply hasCommonSubstring_sound in E. contradiction.
Qed.

(** The score of an uncapped block size. *)
Lemma scoreDistance_range (h1 h2 : bytes) (blockSize : Z) :
  (1 <= rollingWindow)%nat -> 0 < spamSumLength ->
  0 <= distance h1 h2 <= len h1 + len h2 ->
  blockSizeSmallLimit <= blockSize ->
  0 <= scoreDistance h1 h2 blockSize <= 100.
Proof.
  intros HW HL Hd Hb. unfold scoreDistance.
  destruct (hasCommonSubstring h1 h2) eqn:Hf; cbn [negb]; [|lia].
  destruct (hasCommonSubstring_long _ _ Hf) as [L1 L2].
  rewrite (proj2 (Z.leb_le _ _) Hb).
  assert (Hn : 0 < len h1 + len h2) by (unfold len; lia).
  set (d := distance h1 h2) in *. set (n := len h1 + len h2) in *.
  rewrite (Z.quot_div_nonneg (d * spamSumLength)) by nia.
  assert (Hs1 : 0 <= d * spamSumLength / n) by (apply Z.div_pos; nia).
  assert (Hs2 : d * spamSumLength / n <= spamSumLength)
    by (apply Z.div_le_upper_bound; nia).
  rewrite Z.quot_div_nonneg by lia.
  assert (Hp1 : 0 <= 100 * (d * spamSumLength / n) / spamSumLength)
    by (apply Z.div_pos; lia).
  assert (Hp2 : 100 * (d * spamSumLength / n) / spamSumLength <= 100)
    by (apply Z.div_le_upper_bound; lia).
  lia.
Qed.

(** X1: the filter has no false positive (section 4.3): when it passes, the
    two strings share a window of [rollingWindow] bytes, whatever the
    rolling checksum is. *)
Theorem filter_has_no_false_positive (h1 h2 : bytes) :
  hasCommonSubstring h1 h2 = true -> commonWindow rollingWindow h1 h2.
Proof. apply hasCommonSubstring_sound. Qed.

(** X2: two parsed signatures that do not take the fast path and whose
    compared parts share no window of [rollingWindow] bytes score 0. *)
Theorem no_common_window_scores_zero (hash1 hash2 : bytes) b1 p11 p12 b2 p21 p22 :
  splitSsdeep hash1 = (b1, p11, p12, None) ->
  splitSsdeep hash2 = (b2, p21, p22, None) ->
  ~ (b1 = b2 /\ p11 = p21 /\ p12 = p22) ->
  Forall (fun ab => ~ commonWindow rollingWindow (fst ab) (snd ab))
         (comparedParts b1 p11 p12 b2 p21 p22) ->
  Distance hash1 hash2 = (0, None).
Proof.
  intros E1 E2 Hfast Hnone.
  rewrite (Distance_parsed _ _ _ _ _ _ _ _ E1 E2).
  destruct (_ && bytes_eqb p12 p22) eqn:Ef.
  { apply fast_path_iff in Ef. contradiction. }
  unfold comparedParts in Hnone.
  destruct (b1 =? b2) eqn:Eb; cbn [negb andb].
  - inversion Hnone as [|? ? Ha Hrest]; subst.
    inversion Hrest as [|? ? Hb _]; subst. cbn [fst snd] in *.
    rewrite !scoreDistance_no_window by auto. reflexivity.
  - destruct (b1 =? wrap64 (b2 * 2)) eqn:Ed1; cbn [negb andb].
    + inversion Hnone as [|? ? Ha _]; subst. cbn [fst snd] in *.
      rewrite scoreDistance_no_window by auto. reflexivity.
    + destruct (b2 =? wrap64 (b1 * 2)) eqn:Ed2; cbn [negb]; [|reflexivity].
      inversion Hnone as [|? ? Ha _]; subst. cbn [fst snd] in *.
      rewrite scoreDistance_no_window by auto. reflexivity.
Qed.

(** X3: block sizes from the small-block limit on: the score of two parsed
    signatures lies between 0 and 100, for an edit distance between 0 and
    the sum of the two lengths. *)
Theorem uncapped_score_in_range (hash1 hash2 : bytes) b1 p11 p12 b2 p21 p22 :
  (1 <= rollingWindow)%nat -> 0 < spamSumLength ->
  (forall a b, 0 <= distance a b <= len a + len b) ->
  splitSsdeep hash1 = (b1, p11, p12, None) ->
  splitSsdeep hash2 = (b2, p21, p22, None) ->
  0 <= b1 -> 0 <= b2 -> b1 * 2 <= maxInt64 ->
  blockSizeSmallLimit <= b1 -> blockSizeSmallLimit <= b2 ->
  0 <= fst (Distance hash1 hash2) <= 100.
Proof.
  intros HW HL Hd E1 E2 H1 H2 Hw L1 L2.
  rewrite (Distance_parsed _ _ _ _ _ _ _ _ E1 E2).
  destruct (_ && bytes_eqb p12 p22); [cbn; lia|].
  destruct (_ && negb (b2 =? wrap64 (b1 * 2))); [cbn; lia|].
  destruct (b1 =? b2).
  - cbn [fst]. rewrite wrap64_id by (unfold minInt64; lia).
    pose proof (scoreDistance_range p11 p21 b1 HW HL (Hd _ _) L1).
    pose proof (scoreDistance_range p12 p22 (b1 * 2) HW HL (Hd _ _) ltac:(lia)).
    rewrite max_small by assumption. lia.
  - destruct (b1 =? wrap64 (b2 * 2)); cbn [fst]; now apply scoreDistance_range.
Qed.

End ScoreProperties.

(** ** The declarations of the format meet the assumptions *)

Lemma format_window : (1 <= @rollingWindow format)%nat.
Proof. cbn. unfold Spamsum.W. lia. Qed.

Lemma format_distance_sym : @distance_sym format.
Proof. intros a b. cbn. f_equal. apply levenshtein_sym. Qed.

Lemma format_distance_insert : @distance_insert format.
Proof.
  intros a b [(x & c & y & -> & ->)|(x & c & y & -> & ->)]; cbn.
  - now rewrite levenshtein_insert.
  - now rewrite levenshtein_sym, levenshtein_insert.
Qed.

(** ** Concrete signatures *)

(** C1, as stated, fails: the run of five in ["3:aaaaa:bb"] is cut down to
    three bytes, not two. *)
Lemma C1_run_of_five_keeps_three :
  splitSsdeep (bytes_of "3:aaaaa:bb") = (3, bytes_of "aaa", bytes_of "bb", None)
  /\ maxRun (bytes_of "aaa") = 3%nat.
Proof. split; vm_compute; reflexivity. Qed.

Lemma C1_witness :
  exists f0 f1 f2,
    threeFields (bytes_of "3:aaaaa:bb") f0 f1 f2 /\
    bytes_of "aaa" = collapseRuns 3 f1 /\ bytes_of "bb" = collapseRuns 3 f2 /\
    (maxRun (bytes_of "aaa") <= 3)%nat /\ (maxRun (bytes_of "bb") <= 3)%nat.
Proof.
  apply (C1_runs_collapse_to_three (bytes_of "3:aaaaa:bb") 3). reflexivity.
Defined.

(** C2, as stated, fails: with block sizes 6 and 3 the score is the one for
    block size 6 (cap 14), not the one for block size 3 (cap 7), in either
    order of the arguments. *)
Lemma C2_larger_block_size_used :
  @Distance format (bytes_of "6:abcdefg:x") (bytes_of "3:y:abcdefgh") = (14, None)
  /\ @scoreDistance format (bytes_of "abcdefg") (bytes_of "abcdefgh") 3 = 7
  /\ @Distance format (bytes_of "3:y:abcdefgh") (bytes_of "6:abcdefg:x") = (14, None)
  /\ @scoreDistance format (bytes_of "abcdefgh") (bytes_of "abcdefg") 3 = 7.
Proof. repeat split; vm_compute; reflexivity. Qed.

Lemma C2_witness :
  @Distance format (bytes_of "6:abcdefg:x") (bytes_of "3:y:abcdefgh")
  = (@scoreDistance format (bytes_of "abcdefg") (bytes_of "abcdefgh") 6, None)
  /\ @Distance format (bytes_of "3:y:abcdefgh") (bytes_of "6:abcdefg:x")
     = (@scoreDistance format (bytes_of "abcdefgh") (bytes_of "abcdefg") 6, None).
Proof.
  split.
  - apply (C2_double_block_size (ext := format)
             (bytes_of "6:abcdefg:x") (bytes_of "3:y:abcdefgh")
             6 (bytes_of "abcdefg") (bytes_of "x")
             3 (bytes_of "y") (bytes_of "abcdefgh"));
      [reflexivity | reflexivity | discriminate | reflexivity].
  - apply (C2_double_block_size (ext := format)
             (bytes_of "3:y:abcdefgh") (bytes_of "6:abcdefg:x")
             3 (bytes_of "y") (bytes_of "abcdefgh")
             6 (bytes_of "abcdefg") (bytes_of "x"));
      [reflexivity | reflexivity | discriminate | reflexivity].
Defined.

(** C3: a negative block size, which the parser accepts, gives a negative
    score. *)
Theorem C3_negative_score :
  @Distance format (bytes_of "-6:abcdefg:") (bytes_of "-3::abcdefg") = (-14, None).
Proof. vm_compute. reflexivity. Qed.

(** C4, as stated, fails: a negative block size is accepted. *)
Lemma C4_negative_block_size_accepted :
  parseError (bytes_of "-3:aa:bb") = None
  /\ @Distance format (bytes_of "-3:aa:bb") (bytes_of "-3:aa:bb") = (100, None).
Proof. split; vm_compute; reflexivity. Qed.

Lemma C5_witness :
  @Distance format (bytes_of "6:abcdefg:x") (bytes_of "3:y:abcdefgh")
  = @Distance format (bytes_of "3:y:abcdefgh") (bytes_of "6:abcdefg:x").
Proof.
  apply (C5_distance_commutative (ext := format));
    [exact format_window | exact SpamsumFacts.spamsum_windowed
     | exact format_distance_sym | reflexivity | reflexivity].
Defined.

Lemma C6_witness :
  @Distance format (bytes_of "3:abcdefg:x") (bytes_of "3:abcdefg:x") = (100, None).
Proof. apply (C6_distance_self (ext := format)). reflexivity. Defined.


(** Outside of the signature format: with a negative block size the
    product [hash2BlockSize*2] can wrap around onto the other block size;
    -2 and 9223372036854775807 are then scored as if one were the double of
    the other. *)
Lemma wrapped_double_block_size :
  @Distance format (bytes_of "-2:abcdefg:x")
                   (bytes_of "9223372036854775807:y:abcdefg") = (-4, None).
Proof. vm_compute. reflexivity. Qed.

(** C8, as stated, fails: for block size 4 and two parts of 7 bytes the cap
    is [int(4.0 / 3 * 7) = 9], where integer division gives [4 / 3 * 7 = 7];
    and the conversion to [int] truncates, it is no floor: for the block
    size -2, which the parser accepts, the cap is [int(-4.67) = -4], not -5. *)
Lemma C8_cap_is_not_integer_division :
  @hasCommonSubstring format (bytes_of "abcdefg") (bytes_of "abcdefg") = true
  /\ @scoreDistance format (bytes_of "abcdefg") (bytes_of "abcdefg") 4 = 9
  /\ @normalize_integer format
       (@distance format (bytes_of "abcdefg") (bytes_of "abcdefg")) 7 7 4 = 7
  /\ @scoreDistance format (bytes_of "abcdefg") (bytes_of "abcdefg") (-2) = -4
  /\ @normalize_floor format
       (@distance format (bytes_of "abcdefg") (bytes_of "abcdefg")) 7 7 (-2) = -5.
Proof. repeat split; vm_compute; reflexivity. Qed.

Lemma C8_witness :
  @scoreDistance format (bytes_of "abcdefg") (bytes_of "abcdefg") 4
  = @normalize format 0 7 7 4.
Proof.
  apply (C8_score_normalization (ext := format)
           (bytes_of "abcdefg") (bytes_of "abcdefg") 4);
    [exact format_window | reflexivity | discriminate
     | reflexivity | reflexivity | reflexivity].
Defined.

(** C9, as stated, fails: an inserted byte that extends a run of three is
    collapsed away and the score is 100; an inserted byte that leaves no
    common window of seven bytes gives the score 0. *)
Lemma C9_insertion_scores_100_or_0 :
  @Distance format (bytes_of "3:aaa:x") (bytes_of "3:aaaa:x") = (100, None)
  /\ @Distance format (bytes_of "96:abcdefg:x") (bytes_of "96:abcXdefg:x") = (0, None).
Proof. split; vm_compute; reflexivity. Qed.

Lemma C9_witness :
  exists score,
    @Distance format (bytes_of "3:abcdefgh:x") (bytes_of "3:abcdefghi:x")
    = (score, None) /\ 0 < score < 100.
Proof.
  apply (C9_single_insertion (ext := format)
           (bytes_of "3:abcdefgh:x") (bytes_of "3:abcdefghi:x")
           3 (bytes_of "abcdefgh") (bytes_of "x") (bytes_of "abcdefghi") (bytes_of "x"));
    [exact format_window | exact SpamsumFacts.spamsum_windowed
     | exact format_distance_insert | split; [reflexivity | discriminate]
     | reflexivity | reflexivity | ].
  left. split; [|split; [reflexivity|split; [|split; [|split]]]].
  - left. exists (bytes_of "abcdefgh"), "i"%char, []. split; reflexivity.
  - split; [discriminate | reflexivity].
  - exists 0%nat, 0%nat.
    split; [vm_compute; lia | split; [vm_compute; lia | reflexivity]].
  - discriminate.
  - right. reflexivity.
Defined.

Lemma C10_witness :
  @Distance format (bytes_of "3:abc:x") (bytes_of "3:abd:x") = (0, None).
Proof.
  apply (C10_short_parts_score_zero (ext := format)
           (bytes_of "3:abc:x") (bytes_of "3:abd:x")
           3 (bytes_of "abc") (bytes_of "x") 3 (bytes_of "abd") (bytes_of "x"));
    [reflexivity | reflexivity | intros (_ & H & _); discriminate H | ].
  repeat constructor.
Defined.

Lemma format_distance_range (a b : bytes) :
  0 <= @distance format a b <= len a + len b.
Proof.
  cbn. unfold len. split; [lia|].
  assert (H : (levenshtein a b <= List.length a + List.length b)%nat); [|lia].
  revert b; induction a as [|x a IH]; intros b.
  - rewrite levenshtein_nil_l. lia.
  - destruct b as [|y b].
    + rewrite levenshtein_nil_r. lia.
    + rewrite levenshtein_cons. specialize (IH (y :: b)). cbn [List.length] in *. lia.
Qed.

Lemma filter_witness :
  commonWindow (@rollingWindow format) (bytes_of "abcdefg") (bytes_of "xabcdefg").
Proof.
  apply (filter_has_no_false_positive (ext := format)). reflexivity.
Defined.

Lemma no_common_window_witness :
  @Distance format (bytes_of "96:abcdefg:x") (bytes_of "96:abcXdefg:x") = (0, None).
Proof.
  apply (no_common_window_scores_zero (ext := format)
           (bytes_of "96:abcdefg:x") (bytes_of "96:abcXdefg:x")
           96 (bytes_of "abcdefg") (bytes_of "x")
           96 (bytes_of "abcXdefg") (bytes_of "x"));
    [reflexivity | reflexivity | intros (_ & H & _); discriminate H | ].
  repeat constructor; cbn [fst snd]; intro H;
    apply (hasCommonSubstring_true (ext := format)) in H;
    solve [discriminate H | exact format_window | exact SpamsumFacts.spamsum_windowed].
Defined.

Lemma uncapped_score_witness :
  0 <= fst (@Distance format (bytes_of "96:abcdefgh:x") (bytes_of "192:y:abcdefghi"))
  <= 100.
Proof.
  apply (uncapped_score_in_range (ext := format)
           (bytes_of "96:abcdefgh:x") (bytes_of "192:y:abcdefghi")
           96 (bytes_of "abcdefgh") (bytes_of "x")
           192 (bytes_of "y") (bytes_of "abcdefghi"));
    solve [exact format_window | exact format_distance_range
          | reflexivity | discriminate].
Defined.

(** ** More on the parser *)

Lemma collapseFrom_In (s : bytes) : forall (p : ascii) (k : Z) (c : ascii),
  In c (collapseFrom p k s) -> In c s.
Proof.
  induction s as [|x s IH]; intros p k c; cbn [collapseFrom]; [auto|].
  destruct (Ascii.eqb x p); [destruct (k + 1 <? 3)|]; cbn [In];
    intros H; try (destruct H as [H|H]; [now left|]); right; eapply IH; eauto.
Qed.

Lemma collapseFrom_noColon (s : bytes) :
  noColon s -> noColon (collapseFrom colon 0 s).
Proof. intros H Hin. apply H. eapply collapseFrom_In; eauto. Qed.

(** The loop leaves a string without a run of more than three bytes as it
    is. *)
Lemma collapseFrom_id (s : bytes) : forall (p : ascii) (k : Z),
  0 <= k -> (maxRun s <= 3)%nat -> (runLen p s <= Z.to_nat (2 - k))%nat ->
  collapseFrom p k s = s.
Proof.
  induction s as [|c s IH]; intros p k Hk Hm Hr; [reflexivity|].
  cbn [collapseFrom maxRun runLen] in *.
  destruct (Ascii.eqb c p) eqn:Ep.
  - apply Ascii.eqb_eq in Ep; subst c.
    assert (Hk1 : k + 1 < 3) by lia.
    rewrite (proj2 (Z.ltb_lt _ _) Hk1). f_equal.
    apply IH; lia.
  - f_equal. apply IH; lia.
Qed.

Lemma collapseFrom_idempotent (s : bytes) :
  collapseFrom colon 0 (collapseFrom colon 0 s) = collapseFrom colon 0 s.
Proof.
  destruct (collapseFrom_runs s colon 0 ltac:(lia)) as [Hm Hr].
  apply collapseFrom_id; [lia | exact Hm | exact Hr].
Qed.

Lemma collapseFrom_length (s : bytes) : forall (p : ascii) (k : Z),
  (List.length (collapseFrom p k s) <= List.length s)%nat.
Proof.
  induction s as [|c s IH]; intros p k; cbn [collapseFrom List.length]; [lia|].
  destruct (Ascii.eqb c p); [destruct (k + 1 <? 3)|]; cbn [List.length];
    match goal with |- context [collapseFrom ?q ?j s] => specialize (IH q j) end; lia.
Qed.

(** X4: the parser succeeds exactly on the texts [f0:f1:f2] with three
    fields free of separators and [f0] the text of a 64-bit integer; it then
    returns the value of [f0] as block size and the two other fields with
    their runs cut down to three bytes. *)
Theorem parser_characterisation (hash : bytes) (bs : Z) (part1 part2 : bytes) :
  splitSsdeep hash = (bs, part1, part2, None) <->
  exists f0 f1 f2,
    threeFields hash f0 f1 f2 /\ intLiteral f0 bs /\
    part1 = collapseRuns 3 f1 /\ part2 = collapseRuns 3 f2.
Proof.
  rewrite splitSsdeep_ok. split.
  - intros (f0 & f1 & f2 & HT & Hi & -> & ->). exists f0, f1, f2.
    destruct HT as (E & H0 & H1 & H2).
    repeat split; auto using collapseFrom_collapseRuns.
  - intros (f0 & f1 & f2 & HT & Hi & -> & ->). exists f0, f1, f2.
    destruct HT as (E & H0 & H1 & H2).
    repeat split; auto; symmetry; now apply collapseFrom_collapseRuns.
Qed.

(** X5: the parts that the parser returns contain no separator, and
    together they are shorter than the input. *)
Theorem parsed_parts_have_no_separator (hash : bytes) (bs : Z) (part1 part2 : bytes) :
  splitSsdeep hash = (bs, part1, part2, None) ->
  noColon part1 /\ noColon part2 /\ len part1 + len part2 < len hash.
Proof.
  intros H. apply splitSsdeep_ok in H as (f0 & f1 & f2 & HT & _ & -> & ->).
  destruct HT as (-> & H0 & H1 & H2).
  split; [now apply collapseFrom_noColon|].
  split; [now apply collapseFrom_noColon|].
  pose proof (collapseFrom_length f1 colon 0).
  pose proof (collapseFrom_length f2 colon 0).
  unfold len. rewrite !length_app. cbn [List.length]. rewrite length_app.
  cbn [List.length]. lia.
Qed.

(** X6: normalization is idempotent: writing the parsed parts back after
    the block-size field gives a text that parses to the same signature, and
    a field without a run of more than three bytes is returned as it is. *)
Theorem parser_round_trip (hash f0 f1 f2 : bytes) (bs : Z) (part1 part2 : bytes) :
  threeFields hash f0 f1 f2 ->
  splitSsdeep hash = (bs, part1, part2, None) ->
  splitSsdeep (f0 ++ colon :: part1 ++ colon :: part2) = (bs, part1, part2, None)
  /\ ((maxRun f1 <= 3)%nat -> part1 = f1)
  /\ ((maxRun f2 <= 3)%nat -> part2 = f2).
Proof.
  intros (E & H0 & H1 & H2) H.
  apply splitSsdeep_ok in H as (g0 & g1 & g2 & (E' & G0 & G1 & G2) & Hi & -> & ->).
  rewrite E in E'.
  assert (C0 : cut hash = Some (f0, f1 ++ colon :: f2))
    by (apply cut_some; rewrite E; auto).
  destruct (cut_unique hash g0 (g1 ++ colon :: g2) _ _
              ltac:(now rewrite E) G0 C0) as [<- E1].
  assert (C1 : cut (f1 ++ colon :: f2) = Some (f1, f2)) by (apply cut_some; auto).
  destruct (cut_unique (f1 ++ colon :: f2) g1 g2 _ _ E1 G1 C1) as [<- <-].
  split; [|split].
  - apply splitSsdeep_ok. exists f0, (collapseFrom colon 0 f1), (collapseFrom colon 0 f2).
    repeat split; auto using collapseFrom_noColon;
      symmetry; apply collapseFrom_idempotent.
  - intros Hm. apply collapseFrom_id; [lia | exact Hm |].
    destruct f1 as [|c f1]; cbn [runLen]; [lia|].
    destruct (Ascii.eqb c colon) eqn:Ec; [|lia].
    apply Ascii.eqb_eq in Ec; subst. exfalso; apply H1; now left.
  - intros Hm. apply collapseFrom_id; [lia | exact Hm |].
    destruct f2 as [|c f2]; cbn [runLen]; [lia|].
    destruct (Ascii.eqb c colon) eqn:Ec; [|lia].
    apply Ascii.eqb_eq in Ec; subst. exfalso; apply H2; now left.
Qed.

(** ** More on float64 *)

(** A rounded value keeps its sign. *)
Definition signedAs (sx : bool) (f : float64) : Prop :=
  f = S754_zero sx \/ f = S754_infinity sx \/ f = S754_nan
  \/ exists m e, f = S754_finite sx m e.

Lemma binary_round_aux_sign (sx : bool) (mx ex : Z) (lx : location) :
  signedAs sx (binary_round_aux 53 1024 sx mx ex lx).
Proof.
  unfold binary_round_aux, signedAs.
  destruct (shr_fexp 53 1024 mx ex lx) as [mrs' e'].
  destruct (shr_fexp 53 1024 _ e' loc_Exact) as [mrs'' e''].
  destruct (shr_m mrs'') as [|m|m]; auto.
  destruct (e'' <=? 1024 - 53); eauto 6.
Qed.

Lemma float64_of_neg (m : positive) : signedAs true (float64_of_int (Zneg m)).
Proof.
  unfold float64_of_int, binary_normalize, binary_round.
  destruct (shl_align _ _ _) as [mz ez]. apply binary_round_aux_sign.
Qed.

Lemma int_of_float64_negative (f : float64) :
  signedAs true f -> int_of_float64 f <= 0.
Proof.
  intros [->|[->|[->|(m & e & ->)]]]; cbn [int_of_float64];
    try (unfold minInt64; lia).
  set (mag := if 0 <=? e then Zpos m * 2 ^ e else Zpos m / 2 ^ (- e)).
  assert (Hmag : 0 <= mag).
  { subst mag. destruct (Z.leb_spec 0 e).
    - apply Z.mul_nonneg_nonneg; [lia | now apply Z.pow_nonneg].
    - apply Z.div_pos; [lia | apply Z.pow_pos_nonneg; lia]. }
  destruct (_ && _); unfold minInt64; lia.
Qed.

(** An integer below 2^53 survives the conversion to [float64] and back. *)
Lemma int_of_float64_of_int (d : Z) :
  0 <= d < 2 ^ 53 -> int_of_float64 (float64_of_int d) = d.
Proof.
  intros Hd. destruct d as [|m|m]; [reflexivity| |lia].
  rewrite float64_of_pos by lia. pose proof (size_small m ltac:(lia)) as Hs.
  cbn [int_of_float64]. rewrite mantissa_val by lia.
  assert (Hp : 0 < 2 ^ (53 - Zpos (Pos.size m)))
    by (apply Z.pow_pos_nonneg; lia).
  assert (Hv : (if 0 <=? Zpos (Pos.size m) - 53
                then Zpos m * 2 ^ (53 - Zpos (Pos.size m)) * 2 ^ (Zpos (Pos.size m) - 53)
                else Zpos m * 2 ^ (53 - Zpos (Pos.size m))
                     / 2 ^ (- (Zpos (Pos.size m) - 53))) = Zpos m).
  { destruct (Z.leb_spec 0 (Zpos (Pos.size m) - 53)).
    - replace (Zpos (Pos.size m) - 53) with 0 by lia.
      replace (53 - Zpos (Pos.size m)) with 0 by lia. lia.
    - replace (- (Zpos (Pos.size m) - 53)) with (53 - Zpos (Pos.size m)) by lia.
      apply Z.div_mul; lia. }
  rewrite Hv.
  replace ((minInt64 <=? Zpos m) && (Zpos m <=? maxInt64)) with true; [reflexivity|].
  symmetry. apply andb_true_iff. unfold minInt64, maxInt64.
  split; apply Z.leb_le; lia.
Qed.

Lemma float64_of_int_not_inf (d : Z) :
  d < 2 ^ 53 -> f64_isInf (float64_of_int d) false = false.
Proof.
  intros Hd. destruct d as [|m|m]; [reflexivity| |].
  - now rewrite float64_of_pos.
  - destruct (float64_of_neg m) as [->|[->|[->|(m' & e & ->)]]]; reflexivity.
Qed.

Lemma int_of_float64_le (d B : Z) :
  d <= B -> 0 <= B < 2 ^ 53 -> int_of_float64 (float64_of_int d) <= B.
Proof.
  intros Hd HB. destruct (Z.neg_nonneg_cases d) as [Hn|Hp].
  - destruct d as [|m|m]; try lia.
    pose proof (int_of_float64_negative _ (float64_of_neg m)). lia.
  - rewrite int_of_float64_of_int; lia.
Qed.

(** [math.Max] returns one of its arguments, an infinity it was given, or
    NaN. *)
Lemma math_Max_le (x y : float64) (B : Z) :
  f64_isInf x false = false -> f64_isInf y false = false ->
  int_of_float64 x <= B -> int_of_float64 y <= B -> minInt64 <= B ->
  int_of_float64 (math_Max x y) <= B.
Proof.
  intros Hx Hy Bx By HB. unfold math_Max. rewrite Hx, Hy. cbn [orb].
  destruct (f64_isNaN x || f64_isNaN y); [exact HB|].
  destruct (f64_isZero x && f64_isZero y); [destruct (f64_signbit x); assumption|].
  destruct (SFltb y x); assumption.
Qed.

(** ** More on the filter, the score and the dispatch *)

Section MoreProperties.

Context {ext : Externals}.

(** A string passes the filter against itself: the two loops compute the
    same checksum for its first window. *)
Lemma hasCommonSubstring_refl (h : bytes) :
  (1 <= rollingWindow)%nat -> (rollingWindow <= List.length h)%nat ->
  hasCommonSubstring h h = true.
Proof.
  intros HW Hl. unfold hasCommonSubstring.
  replace (List.length h <? rollingWindow)%nat with false
    by (symmetry; apply Nat.ltb_ge; exact Hl).
  cbn [orb]. apply scanWindows_true. exists 0%nat.
  rewrite length_skipn. split; [lia|].
  apply matchHashes_true. exists 0%nat.
  rewrite rollSums_length, length_skipn. split; [lia|].
  split; [|reflexivity].
  apply rollSums_nth. rewrite length_skipn. lia.
Qed.

Lemma scoreDistance_same (h : bytes) (blockSize : Z) :
  (1 <= rollingWindow)%nat -> (rollingWindow <= List.length h)%nat ->
  distance h h = 0 -> blockSizeSmallLimit <= blockSize ->
  scoreDistance h h blockSize = 100.
Proof.
  intros HW Hl Hd Hb. unfold scoreDistance.
  rewrite hasCommonSubstring_refl, Hd by assumption. cbn [negb].
  rewrite (proj2 (Z.leb_le _ _) Hb), Z.mul_0_l.
  assert (Hn : len h + len h <> 0) by (unfold len; lia).
  rewrite (Z.quot_0_l _ Hn), Z.mul_0_r.
  destruct (Z.eq_dec spamSumLength 0) as [E|Hne];
    [rewrite E; reflexivity | now rewrite Z.quot_0_l].
Qed.

Lemma scoreDistance_le_100 (h1 h2 : bytes) (blockSize : Z) :
  (1 <= rollingWindow)%nat -> 0 < spamSumLength -> 0 <= distance h1 h2 ->
  scoreDistance h1 h2 blockSize <= 100.
Proof.
  intros HW HL Hd. unfold scoreDistance.
  destruct (hasCommonSubstring h1 h2) eqn:Hf; cbn [negb]; [|lia].
  destruct (hasCommonSubstring_long _ _ Hf) as [L1 L2].
  assert (Hn : 0 < len h1 + len h2) by (unfold len; lia).
  rewrite (Z.quot_div_nonneg (distance h1 h2 * spamSumLength)) by nia.
  assert (Hs : 0 <= distance h1 h2 * spamSumLength / (len h1 + len h2))
    by (apply Z.div_pos; nia).
  rewrite Z.quot_div_nonneg by lia.
  assert (Hp : 0 <= 100 * (distance h1 h2 * spamSumLength / (len h1 + len h2))
                    / spamSumLength) by (apply Z.div_pos; lia).
  destruct (blockSizeSmallLimit <=? blockSize); [lia|].
  match goal with |- (if ?x <? ?y then _ else _) <= _ =>
    destruct (Z.ltb_spec x y) end; lia.
Qed.

(** X7: whenever [Distance] returns an error, the score it returns with it
    is 0. *)
Theorem error_comes_with_score_zero (hash1 hash2 : bytes) :
  snd (Distance hash1 hash2) <> None -> fst (Distance hash1 hash2) = 0.
Proof.
  unfold Distance.
  destruct (splitSsdeep hash1) as [[[b1 p11] p12] [e1|]]; [reflexivity|].
  destruct (splitSsdeep hash2) as [[[b2 p21] p22] [e2|]]; [reflexivity|].
  repeat match goal with |- context [if ?c then _ else _] => destruct c end;
    cbn [fst snd]; intros H; now contradiction H.
Qed.

(** X8: two texts whose block-size fields are texts of the same integer and
    whose other fields agree once their runs are cut down to three bytes
    score 100. *)
Theorem same_signature_scores_100 (f0 f1 f2 g0 g1 g2 : bytes) (bs : Z) :
  noColon f0 -> noColon f1 -> noColon f2 ->
  noColon g0 -> noColon g1 -> noColon g2 ->
  intLiteral f0 bs -> intLiteral g0 bs ->
  collapseRuns 3 f1 = collapseRuns 3 g1 ->
  collapseRuns 3 f2 = collapseRuns 3 g2 ->
  Distance (f0 ++ colon :: f1 ++ colon :: f2) (g0 ++ colon :: g1 ++ colon :: g2)
  = (100, None).
Proof.
  intros F0 F1 F2 G0 G1 G2 If Ig E1 E2.
  assert (Hf : splitSsdeep (f0 ++ colon :: f1 ++ colon :: f2)
               = (bs, collapseRuns 3 f1, collapseRuns 3 f2, None)).
  { apply splitSsdeep_ok. exists f0, f1, f2.
    repeat split; auto; symmetry; now apply collapseFrom_collapseRuns. }
  assert (Hg : splitSsdeep (g0 ++ colon :: g1 ++ colon :: g2)
               = (bs, collapseRuns 3 f1, collapseRuns 3 f2, None)).
  { apply splitSsdeep_ok. exists g0, g1, g2. rewrite E1, E2.
    repeat split; auto; symmetry; now apply collapseFrom_collapseRuns. }
  rewrite (Distance_parsed _ _ _ _ _ _ _ _ Hf Hg).
  rewrite (proj2 (fast_path_iff _ _ _ _ _ _)); auto.
Qed.

(** X9: when the rolling checksum is a function of the window, the filter
    passes exactly when the two strings share a window of [rollingWindow]
    bytes: it has no false negative either. *)
Theorem filter_is_exact (h1 h2 : bytes) :
  (1 <= rollingWindow)%nat -> windowed ->
  (hasCommonSubstring h1 h2 = true <-> commonWindow rollingWindow h1 h2).
Proof. intros HW Hwin. now apply hasCommonSubstring_true. Qed.

(** X10: a string of at least [rollingWindow] bytes passes the filter
    against itself, whatever the rolling checksum is. *)
Theorem filter_passes_equal_strings (h : bytes) :
  (1 <= rollingWindow)%nat -> (rollingWindow <= List.length h)%nat ->
  hasCommonSubstring h h = true.
Proof. apply hasCommonSubstring_refl. Qed.

(** X11: [Distance] never returns a score above 100, for any two inputs and
    any block sizes, as long as the edit distance is not negative. *)
Theorem score_at_most_100 (hash1 hash2 : bytes) :
  (1 <= rollingWindow)%nat -> 0 < spamSumLength ->
  (forall a b, 0 <= distance a b) ->
  fst (Distance hash1 hash2) <= 100.
Proof.
  intros HW HL Hd.
  destruct (splitSsdeep hash1) as [[[b1 p11] p12] [e1|]] eqn:E1.
  { unfold Distance. rewrite E1. cbn. lia. }
  destruct (splitSsdeep hash2) as [[[b2 p21] p22] [e2|]] eqn:E2.
  { unfold Distance. rewrite E1, E2. cbn. lia. }
  rewrite (Distance_parsed _ _ _ _ _ _ _ _ E1 E2).
  destruct (_ && bytes_eqb p12 p22); [cbn; lia|].
  destruct (_ && negb (b2 =? wrap64 (b1 * 2))); [cbn; lia|].
  destruct (b1 =? b2).
  - cbn [fst].
    pose proof (scoreDistance_le_100 p11 p21 b1 HW HL (Hd _ _)) as H1.
    pose proof (scoreDistance_le_100 p12 p22 (wrap64 (b1 * 2)) HW HL (Hd _ _)) as H2.
    apply math_Max_le;
      try (apply float64_of_int_not_inf; lia);
      try (apply int_of_float64_le; lia).
    unfold minInt64; lia.
  - destruct (b1 =? wrap64 (b2 * 2)); cbn [fst]; now apply scoreDistance_le_100.
Qed.

(** X12: with equal block sizes and off the fast path, the score is the
    larger of the scores of the two pairs of parts, the second pair scored
    with the doubled block size; the detour of [math.Max] through [float64]
    is exact for scores between 0 and 100. *)
Theorem equal_block_size_takes_max (hash1 hash2 : bytes) (b : Z) (p1 p2 q1 q2 : bytes) :
  splitSsdeep hash1 = (b, p1, p2, None) ->
  splitSsdeep hash2 = (b, q1, q2, None) ->
  ~ (p1 = q1 /\ p2 = q2) ->
  0 <= scoreDistance p1 q1 b <= 100 ->
  0 <= scoreDistance p2 q2 (wrap64 (b * 2)) <= 100 ->
  Distance hash1 hash2
  = (Z.max (scoreDistance p1 q1 b) (scoreDistance p2 q2 (wrap64 (b * 2))), None).
Proof.
  intros E1 E2 Hne H1 H2.
  rewrite (Distance_parsed _ _ _ _ _ _ _ _ E1 E2).
  destruct (_ && bytes_eqb p2 q2) eqn:Ef.
  { apply fast_path_iff in Ef as (_ & F1 & F2). exfalso; auto. }
  rewrite Z.eqb_refl. cbn [negb andb]. now rewrite max_small.
Qed.

(** X13: a score of 100 does not need equal signatures: with the same
    uncapped block size and the same first part of at least
    [rollingWindow] bytes, the score is 100 whatever the second parts. *)
Theorem shared_part_scores_100 (hash1 hash2 : bytes) (b : Z) (p1 p2 q2 : bytes) :
  (1 <= rollingWindow)%nat -> 0 < spamSumLength ->
  (forall a, distance a a = 0) ->
  (forall a c, 0 <= distance a c <= len a + len c) ->
  splitSsdeep hash1 = (b, p1, p2, None) ->
  splitSsdeep hash2 = (b, p1, q2, None) ->
  Z.of_nat rollingWindow <= len p1 ->
  0 <= b -> b * 2 <= maxInt64 -> blockSizeSmallLimit <= b ->
  Distance hash1 hash2 = (100, None).
Proof.
  intros HW HL Hrefl Hd E1 E2 Hl H0 Hw Hb.
  rewrite (Distance_parsed _ _ _ _ _ _ _ _ E1 E2).
  destruct (_ && bytes_eqb p2 q2); [reflexivity|].
  rewrite Z.eqb_refl. cbn [negb andb].
  rewrite scoreDistance_same by (auto; unfold len in Hl; lia).
  rewrite wrap64_id by (unfold minInt64; lia).
  pose proof (scoreDistance_range p2 q2 (b * 2) HW HL (Hd _ _) ltac:(lia)) as H2.
  rewrite max_small by lia. f_equal. lia.
Qed.

End MoreProperties.

(** ** More concrete signatures *)

Ltac no_colon := unfold noColon; cbn; intuition discriminate.

Lemma format_distance_refl (a : bytes) : @distance format a a = 0.
Proof. cbn. now rewrite levenshtein_refl. Qed.

Lemma parsed_parts_witness :
  noColon (bytes_of "aaa") /\ noColon (bytes_of "bb")
  /\ len (bytes_of "aaa") + len (bytes_of "bb") < len (bytes_of "3:aaaaa:bb").
Proof.
  apply (parsed_parts_have_no_separator (bytes_of "3:aaaaa:bb") 3). reflexivity.
Defined.

Lemma parser_round_trip_witness :
  splitSsdeep (bytes_of "3" ++ colon :: bytes_of "aaa" ++ colon :: bytes_of "bb")
  = (3, bytes_of "aaa", bytes_of "bb", None)
  /\ ((maxRun (bytes_of "aaaaa") <= 3)%nat -> bytes_of "aaa" = bytes_of "aaaaa")
  /\ ((maxRun (bytes_of "bb") <= 3)%nat -> bytes_of "bb" = bytes_of "bb").
Proof.
  apply (parser_round_trip (bytes_of "3:aaaaa:bb")
           (bytes_of "3") (bytes_of "aaaaa") (bytes_of "bb") 3);
    [|reflexivity].
  split; [reflexivity|]. repeat split; no_colon.
Defined.

Lemma error_score_witness : fst (@Distance format [] (bytes_of "3:aa:bb")) = 0.
Proof. apply (error_comes_with_score_zero (ext := format)). discriminate. Defined.

Lemma same_signature_witness :
  @Distance format
    (bytes_of "+03" ++ colon :: bytes_of "aaaaa" ++ colon :: bytes_of "x")
    (bytes_of "3" ++ colon :: bytes_of "aaa" ++ colon :: bytes_of "x")
  = (100, None).
Proof.
  apply (same_signature_scores_100 (ext := format) _ _ _ _ _ _ 3);
    try no_colon; try reflexivity.
  - exists (bytes_of "03"). split; [discriminate|]. split.
    + repeat constructor; discriminate.
    + split; [left; split; [right|]; reflexivity | split; discriminate].
  - exists (bytes_of "3"). split; [discriminate|]. split.
    + repeat constructor; discriminate.
    + split; [left; split; [left|]; reflexivity | split; discriminate].
Defined.

Lemma filter_exact_witness :
  @hasCommonSubstring format (bytes_of "xabcdefgyy") (bytes_of "qqabcdefgzz") = true
  <-> commonWindow (@rollingWindow format)
        (bytes_of "xabcdefgyy") (bytes_of "qqabcdefgzz").
Proof.
  apply (filter_is_exact (ext := format));
    [exact format_window | exact SpamsumFacts.spamsum_windowed].
Defined.

Lemma filter_equal_witness :
  @hasCommonSubstring format (bytes_of "abcdefg") (bytes_of "abcdefg") = true.
Proof.
  apply (filter_passes_equal_strings (ext := format));
    [exact format_window | vm_compute; lia].
Defined.

Lemma score_at_most_100_witness :
  fst (@Distance format (bytes_of "-6:abcdefg:") (bytes_of "-3::abcdefg")) <= 100.
Proof.
  apply (score_at_most_100 (ext := format));
    [exact format_window | reflexivity
     | intros a b; apply format_distance_range].
Defined.

Lemma equal_block_size_witness :
  @Distance format (bytes_of "96:abcdefgh:x") (bytes_of "96:abcdefghi:x")
  = (Z.max (@scoreDistance format (bytes_of "abcdefgh") (bytes_of "abcdefghi") 96)
           (@scoreDistance format (bytes_of "x") (bytes_of "x") (wrap64 (96 * 2))),
     None).
Proof.
  apply (equal_block_size_takes_max (ext := format)
           (bytes_of "96:abcdefgh:x") (bytes_of "96:abcdefghi:x"));
    [reflexivity | reflexivity | intros [H _]; discriminate H
     | split; discriminate | split; discriminate].
Defined.

Lemma shared_part_witness :
  @Distance format (bytes_of "96:abcdefg:x") (bytes_of "96:abcdefg:y") = (100, None).
Proof.
  apply (shared_part_scores_100 (ext := format)
           (bytes_of "96:abcdefg:x") (bytes_of "96:abcdefg:y")
           96 (bytes_of "abcdefg") (bytes_of "x") (bytes_of "y"));
    solve [exact format_window | exact format_distance_refl
          | exact format_distance_range | reflexivity | discriminate].
Defined.
